(** * Redaction engine of [lambda_function.py]

    A shallow embedding of [detect_pii_with_comprehend]'s entity filter and
    of [redact_pii], followed by the properties the specification states
    about them.

    Text is a Python [str], modelled as a list of characters.  Characters
    are the 8-bit code points of [ascii] (Latin-1); on these code points
    the class [\d] of Python's [re] is exactly ['0'..'9'].  Offsets are
    Python [int]s, modelled in [Z], and slices follow Python's rules for
    every integer, negative ones included. *)

From Stdlib Require Import Ascii String.
From Stdlib Require Import List ZArith Lia Bool Arith.
From Stdlib Require Import Permutation Sorted.
Import ListNotations.

Local Open Scope Z_scope.
Local Open Scope list_scope.

(* ================================================================= *)
(** ** Text *)

Definition text : Type := list ascii.

(** A string literal as a text. *)
Definition txt (s : string) : text := list_ascii_of_string s.

Definition newline : ascii := "010"%char.
Definition mask : ascii := "*"%char.

Definition is_newline (c : ascii) : bool := Ascii.eqb c newline.
Definition is_mask (c : ascii) : bool := Ascii.eqb c mask.

(** [\d] on code points below 256: the ten ASCII digits. *)
Definition is_digit (c : ascii) : bool :=
  let n := nat_of_ascii c in (48 <=? n)%nat && (n <=? 57)%nat.

(* ================================================================= *)
(** ** Python slices [s[:i]] and [s[j:]] *)

(** The position a slice bound denotes in a sequence of length [len]:
    a negative bound counts from the end, and every bound is brought
    back into [0, len]. *)
Definition slice_index (len : nat) (i : Z) : nat :=
  if i <? 0 then Z.to_nat (Z.of_nat len + i)
  else Nat.min (Z.to_nat i) len.

Definition slice_to {A : Type} (s : list A) (i : Z) : list A :=
  firstn (slice_index (length s) i) s.

Definition slice_from {A : Type} (s : list A) (j : Z) : list A :=
  skipn (slice_index (length s) j) s.

(* ================================================================= *)
(** ** The regular expression of [redact_pii]

    [re.compile(r'.*\*+\d+', re.MULTILINE)].  The pattern is a
    concatenation of greedy repetitions of one-character classes.  The
    flag [re.MULTILINE] changes only [^] and [$], which the pattern does
    not use; without [re.DOTALL], [.] matches every character but the
    newline. *)

Inductive cclass : Type :=
| Dot                      (* .  : anything but a newline *)
| Lit (c : ascii)          (* \* : that character *)
| Digit.                   (* \d *)

Inductive regex : Type :=
| Star (c : cclass)        (* c*  greedy *)
| Plus (c : cclass)        (* c+  greedy *)
| Cat (r1 r2 : regex).

Definition pattern : regex :=
  Cat (Star Dot) (Cat (Plus (Lit mask)) (Plus Digit)).

Definition accepts (c : cclass) (x : ascii) : bool :=
  match c with
  | Dot => negb (is_newline x)
  | Lit a => Ascii.eqb x a
  | Digit => is_digit x
  end.

(** Backtracking search, as a list of successes: every way the
    expression can match a prefix of [s], given by the suffix left
    unread, in the order the matcher tries them.  A greedy repetition
    tries the longest run first and gives characters back one at a
    time. *)
Fixpoint star_run (c : cclass) (s : text) : list text :=
  match s with
  | [] => [[]]
  | x :: s' => if accepts c x then star_run c s' ++ [s] else [s]
  end.

Definition plus_run (c : cclass) (s : text) : list text :=
  match s with
  | [] => []
  | x :: s' => if accepts c x then star_run c s' else []
  end.

Fixpoint run (r : regex) (s : text) : list text :=
  match r with
  | Star c => star_run c s
  | Plus c => plus_run c s
  | Cat r1 r2 => flat_map (run r2) (run r1 s)
  end.

(** [pattern.match] at the head of [s]: the first success, if any. *)
Definition rx_match (r : regex) (s : text) : option text :=
  hd_error (run r s).

Definition line_placeholder : text := txt "[REDACTED LINE]".

(** [r.sub(repl, s)]: scan from the left; where the expression matches,
    write [repl] and resume after the match; elsewhere copy one
    character.  [skip] counts the characters of the current match still
    to be passed over.  Used with expressions whose matches are never
    empty (see [pattern_match_consumes]), for which the rules of [re.sub]
    about empty matches do not arise; such a match is treated as none. *)
Fixpoint sub_from (r : regex) (repl : text) (skip : nat) (s : text) : text :=
  match s with
  | [] => []
  | c :: s' =>
      match skip with
      | S k => sub_from r repl k s'
      | O =>
          match rx_match r s with
          | Some rest =>
              match (length s - length rest)%nat with
              | S n => repl ++ sub_from r repl n s'
              | O => c :: sub_from r repl 0 s'
              end
          | None => c :: sub_from r repl 0 s'
          end
      end
  end.

Definition re_sub (r : regex) (repl : text) (s : text) : text :=
  sub_from r repl 0 s.

(** Lines 36-38 of [redact_pii]: the structural line pass. *)
Definition redact_lines (t : text) : text :=
  re_sub pattern line_placeholder t.

(* ================================================================= *)
(** ** Entities *)

(** An entity of [response['Entities']]: the three fields the program
    reads.  [Type] is a reserved word, the field is [EType]. *)
Record entity : Type := mkEntity {
  EType : text;
  BeginOffset : Z;
  EndOffset : Z
}.

(** [detect_pii_with_comprehend], lines 28-30: the list comprehension
    over the service's answer. *)
Definition excluded_kind : text := txt "IP_ADDRESS".

Fixpoint text_eqb (a b : text) : bool :=
  match a, b with
  | [], [] => true
  | x :: a', y :: b' => Ascii.eqb x y && text_eqb a' b'
  | _, _ => false
  end.

Definition detect_filter (entities : list entity) : list entity :=
  filter (fun e => negb (text_eqb (EType e) excluded_kind)) entities.

(** [f"[REDACTED {entity['Type']}]"] *)
Definition placeholder (e : entity) : text :=
  txt "[REDACTED " ++ EType e ++ txt "]".

(** Lines 43-46, one turn of the loop. *)
Definition replace_span (redacted_text : text) (e : entity) : text :=
  let start := BeginOffset e in
  let end_ := EndOffset e in
  slice_to redacted_text start ++ placeholder e ++ slice_from redacted_text end_.

(** [sorted(pii_entities, key=lambda x: x['BeginOffset'], reverse=True)].
    Python's sort is stable, also under [reverse=True]: entities with the
    same key keep the order of the input.  An entity is placed before the
    first one whose key is not greater than its own. *)
Fixpoint insert_desc (e : entity) (l : list entity) : list entity :=
  match l with
  | [] => [e]
  | y :: ys =>
      if BeginOffset e <? BeginOffset y
      then y :: insert_desc e ys
      else e :: l
  end.

Fixpoint sorted_desc (l : list entity) : list entity :=
  match l with
  | [] => []
  | e :: l' => insert_desc e (sorted_desc l')
  end.

(** Lines 40-47: the entity pass on the text it is given. *)
Definition redact_entities (t : text) (pii_entities : list entity) : text :=
  match pii_entities with
  | [] => t
  | _ => fold_left replace_span (sorted_desc pii_entities) t
  end.

Definition redact_pii (t : text) (pii_entities : list entity) : text :=
  redact_entities (redact_lines t) pii_entities.

(** What a call does: return a value or raise.  [redact_pii] has no
    [raise], and on entities with a string [Type] and integer offsets
    none of its operations fails: every call returns. *)
Inductive outcome (A : Type) : Type :=
| Returns (a : A)
| Raises (exc : string).
Arguments Returns {A} a.
Arguments Raises {A} exc.

Definition call_redact_pii (t : text) (pii_entities : list entity)
  : outcome text :=
  Returns (redact_pii t pii_entities).

(** [lambda_handler], lines 114-118: the entities are detected on the
    extracted text and the same text is handed to [redact_pii].
    [detected] is the service's answer for [extracted_text]. *)
Definition handler_redaction (extracted_text : text)
  (detected : list entity) : text :=
  redact_pii extracted_text (detect_filter detected).

(* ================================================================= *)
(** ** Notions the properties are stated with *)

(** Lines: the maximal runs of characters between newlines. *)
Fixpoint split_lines (s : text) : list text :=
  match s with
  | [] => [[]]
  | c :: s' =>
      if is_newline c then [] :: split_lines s'
      else match split_lines s' with
           | l :: ls => (c :: l) :: ls
           | [] => [[c]]
           end
  end.

Fixpoint join_lines (ls : list text) : text :=
  match ls with
  | [] => []
  | [l] => l
  | l :: ls' => l ++ newline :: join_lines ls'
  end.

Definition no_newline (l : text) : Prop :=
  forallb (fun c => negb (is_newline c)) l = true.

(** The masked-number signature: a mask character with a digit right
    after it.  A run of mask characters followed by a run of digits
    holds one such pair, where the two runs meet, and a pair is such a
    run (see [has_signature_iff]). *)
Definition starts_with_digit (s : text) : bool :=
  match s with
  | d :: _ => is_digit d
  | [] => false
  end.

Fixpoint has_signature (s : text) : bool :=
  match s with
  | [] => false
  | c :: s' => (is_mask c && starts_with_digit s') || has_signature s'
  end.

Definition signature_in (l : text) : Prop :=
  exists pre masks digits post,
    l = pre ++ masks ++ digits ++ post /\
    masks <> [] /\ forallb is_mask masks = true /\
    digits <> [] /\ forallb is_digit digits = true.

(** The match of [pattern] at the head of [s], computed directly:
    [drop_digits] passes a run of digits, [mask_run_end] is the match of
    [\*+\d+], and [pattern_end] prefers the match that starts furthest
    to the right on the line.  [rx_match_pattern] shows it is what the
    backtracking search finds. *)
Fixpoint drop_digits (s : text) : text :=
  match s with
  | [] => []
  | c :: s' => if is_digit c then drop_digits s' else s
  end.

Fixpoint mask_run_end (s : text) : option text :=
  match s with
  | [] => None
  | c :: s' =>
      if is_mask c then
        if starts_with_digit s' then Some (drop_digits s')
        else mask_run_end s'
      else None
  end.

Fixpoint pattern_end (s : text) : option text :=
  match s with
  | [] => None
  | c :: s' =>
      if is_newline c then None
      else match pattern_end s' with
           | Some rest => Some rest
           | None => mask_run_end s
           end
  end.

(** Python's [s[a:b]]. *)
Definition py_slice {A : Type} (s : list A) (a b : Z) : list A :=
  let i := slice_index (length s) a in
  let j := slice_index (length s) b in
  firstn (j - i) (skipn i s).

(** A span is valid on a text when [0 <= begin <= end <= len(text)]. *)
Definition valid_span (t : text) (e : entity) : Prop :=
  0 <= BeginOffset e /\ BeginOffset e <= EndOffset e /\
  EndOffset e <= Z.of_nat (length t).

(** Two half-open ranges do not overlap when one ends no later than the
    other begins. *)
Definition disjoint (a b : entity) : Prop :=
  EndOffset a <= BeginOffset b \/ EndOffset b <= BeginOffset a.

Definition pairwise_disjoint (l : list entity) : Prop :=
  ForallOrdPairs disjoint l.

Definition distinct_begins (l : list entity) : Prop :=
  NoDup (map BeginOffset l).

Definition begins_before (a b : entity) : Prop :=
  BeginOffset a < BeginOffset b.

Definition begins_not_before (a b : entity) : Prop :=
  BeginOffset a >= BeginOffset b.

(** The order the specification gives for the loop: [begin] descending,
    ties broken by [end] descending. *)
Definition spec_order (a b : entity) : Prop :=
  BeginOffset a > BeginOffset b \/
  (BeginOffset a = BeginOffset b /\ EndOffset a >= EndOffset b).

(** The output the specification describes for spans listed from left
    to right: the text from [pos] up to the next span, that span's
    placeholder, and so on from the span's end; after the last span,
    the rest of the text. *)
Fixpoint spec_layout (t : text) (pos : Z) (asc : list entity) : text :=
  match asc with
  | [] => slice_from t pos
  | e :: rest =>
      py_slice t pos (BeginOffset e) ++ placeholder e ++
      spec_layout t (EndOffset e) rest
  end.

(** Spans laid out from left to right, from [pos] to [len], each
    starting no earlier than the one before it ends. *)
Fixpoint chained (pos len : Z) (asc : list entity) : Prop :=
  match asc with
  | [] => pos <= len
  | e :: rest =>
      pos <= BeginOffset e /\ BeginOffset e <= EndOffset e /\
      chained (EndOffset e) len rest
  end.

(** [base] is [full] with the entities of the excluded kind never
    there: every other entity is kept, in place. *)
Inductive without_excluded : list entity -> list entity -> Prop :=
| wo_nil : without_excluded [] []
| wo_keep e full base :
    EType e <> excluded_kind ->
    without_excluded full base -> without_excluded (e :: full) (e :: base)
| wo_drop e full base :
    EType e = excluded_kind ->
    without_excluded full base -> without_excluded (e :: full) base.

Definition nonempty_span (e : entity) : Prop :=
  BeginOffset e < EndOffset e.

Definition nonneg_offsets (e : entity) : Prop :=
  0 <= BeginOffset e /\ 0 <= EndOffset e.

Definition inverted (e : entity) : Prop :=
  EndOffset e < BeginOffset e.

(** The offsets of [e] brought back into [0, len]. *)
Definition clamp (len : nat) (e : entity) : entity :=
  mkEntity (EType e)
           (Z.min (BeginOffset e) (Z.of_nat len))
           (Z.min (EndOffset e) (Z.of_nat len)).

(** One turn of the loop with both offsets cut down to the length of
    the current text: the text up to the cut [begin], the placeholder,
    the text from the cut [end] on. *)
Definition clamped_replace (cur : text) (e : entity) : text :=
  let len := length cur in
  firstn (Nat.min (Z.to_nat (BeginOffset e)) len) cur ++
  placeholder e ++
  skipn (Nat.min (Z.to_nat (EndOffset e)) len) cur.

(* ================================================================= *)
(** ** Notions for the further properties *)

(** What the line pass makes of a line that holds the signature: the
    line up to the end of the digits after its last mask character is
    replaced by the placeholder, and what follows the digits is kept. *)
Definition redacted_from (l l' : text) : Prop :=
  exists before digits rest,
    l = before ++ mask :: digits ++ rest /\
    digits <> [] /\ forallb is_digit digits = true /\
    starts_with_digit rest = false /\ has_signature rest = false /\
    l' = line_placeholder ++ rest.

(** By how much the placeholders of a span list change the length of a
    text: each span trades its range for its placeholder. *)
Fixpoint growth (l : list entity) : Z :=
  match l with
  | [] => 0
  | e :: l' =>
      Z.of_nat (length (placeholder e)) - (EndOffset e - BeginOffset e) +
      growth l'
  end.

(* ================================================================= *)
(** ** [download_photo] *)

(** [os.path.basename] on a POSIX system:
    [i = p.rfind('/') + 1; return p[i:]]. *)
Definition slash : ascii := "/"%char.
Definition is_slash (c : ascii) : bool := Ascii.eqb c slash.

(** [s.rfind(c)]: the highest index of [c] in [s], or [-1]. *)
Fixpoint rfind (c : ascii) (s : text) : Z :=
  match s with
  | [] => -1
  | x :: s' =>
      let r := rfind c s' in
      if 0 <=? r then r + 1
      else if Ascii.eqb x c then 0 else -1
  end.

Definition basename (p : text) : text :=
  let i := rfind slash p + 1 in
  slice_from p i.

(** Line 72: [f'/tmp/{os.path.basename(object_key)}']. *)
Definition download_path_of (object_key : text) : text :=
  txt "/tmp/" ++ basename object_key.

(** The event is what the JSON decoder gives: dictionaries with string
    keys, lists, strings, integers, booleans and [None] (a number with a
    fraction is not needed by the program and is left out). *)
#[warnings="-register-all"]
Inductive pyval : Type :=
| PNone
| PBool (b : bool)
| PInt (z : Z)
| PStr (s : text)
| PList (l : list pyval)
| PDict (d : list (text * pyval)).

Fixpoint dict_get (d : list (text * pyval)) (k : text) : option pyval :=
  match d with
  | [] => None
  | (k', v) :: d' => if text_eqb k' k then Some v else dict_get d' k
  end.

(** [seq[i]] for an integer [i]: a negative index counts from the
    end. *)
Definition seq_index {A : Type} (l : list A) (i : Z) : option A :=
  let len := Z.of_nat (length l) in
  let j := if i <? 0 then len + i else i in
  if (0 <=? j) && (j <? len) then nth_error l (Z.to_nat j) else None.

Definition bind {A B : Type} (m : outcome A) (k : A -> outcome B)
  : outcome B :=
  match m with
  | Returns a => k a
  | Raises exc => Raises exc
  end.

(** The subscripts the program writes: a string or an integer. *)
Inductive pykey : Type :=
| KStr (s : text)
| KInt (i : Z).

(** [v[k]].  A dictionary of the event has string keys only, so an
    integer subscript finds nothing in it. *)
Definition getitem (v : pyval) (k : pykey) : outcome pyval :=
  match v, k with
  | PDict d, KStr name =>
      match dict_get d name with
      | Some x => Returns x
      | None => Raises "KeyError"
      end
  | PDict _, KInt _ => Raises "KeyError"
  | PList l, KInt i =>
      match seq_index l i with
      | Some x => Returns x
      | None => Raises "IndexError"
      end
  | PStr s, KInt i =>
      match seq_index s i with
      | Some c => Returns (PStr [c])
      | None => Raises "IndexError"
      end
  | _, _ => Raises "TypeError"
  end.

Definition key (s : string) : pykey := KStr (txt s).

(** [event['Records'][0]['s3'][kind][field]] *)
Definition event_field (event : pyval) (kind field : string)
  : outcome pyval :=
  bind (getitem event (key "Records")) (fun records =>
  bind (getitem records (KInt 0)) (fun record =>
  bind (getitem record (key "s3")) (fun s3 =>
  bind (getitem s3 (key kind)) (fun entry =>
  getitem entry (key field))))).

(** [os.path.basename] of a value: [os.fspath] refuses what is not a
    string. *)
Definition os_path_basename (v : pyval) : outcome text :=
  match v with
  | PStr s => Returns (basename s)
  | _ => Raises "TypeError"
  end.

(** The S3 service as the function meets it: creating the client, and
    the two requests, each of which returns or raises an exception of
    the service (a subclass of [Exception]). *)
Record s3_service : Type := {
  boto3_client_s3 : outcome unit;
  head_object : pyval -> pyval -> outcome unit;
  download_file : pyval -> pyval -> text -> outcome unit
}.

(** Lines 77-87.  The name [ClientError] is bound nowhere in the file:
    when [head_object] raises, matching the exception against
    [except ClientError] raises [NameError], and the body of the handler
    is never run.  (Its f-string of lines 82-83, broken over two lines,
    needs Python 3.12.) *)
Definition check_object_exists (s3 : s3_service) (bucket_name object_key : pyval)
  : outcome unit :=
  match head_object s3 bucket_name object_key with
  | Returns _ => Returns tt
  | Raises _ => Raises "NameError"
  end.

(** Lines 66-92, the body of the outer [try]. *)
Definition download_photo_try (s3 : s3_service) (event : pyval)
  : outcome (option text) :=
  bind (event_field event "bucket" "name") (fun bucket_name =>
  bind (event_field event "object" "key") (fun object_key =>
  bind (os_path_basename object_key) (fun base =>
  let download_path := txt "/tmp/" ++ base in
  bind (boto3_client_s3 s3) (fun _ =>
  bind (check_object_exists s3 bucket_name object_key) (fun _ =>
  bind (download_file s3 bucket_name object_key download_path) (fun _ =>
  Returns (Some download_path))))))).

(** [download_photo]: [except Exception] turns every exception of the
    body into the result [None].  What is printed is not modelled. *)
Definition download_photo (s3 : s3_service) (event : pyval)
  : outcome (option text) :=
  match download_photo_try s3 event with
  | Returns path => Returns path
  | Raises _ => Returns None
  end.

(** An event as S3 sends it, for one object. *)
Definition s3_event (bucket object_key : text) : pyval :=
  PDict [(txt "Records",
          PList [PDict [(txt "s3",
                         PDict [(txt "bucket", PDict [(txt "name", PStr bucket)]);
                                (txt "object", PDict [(txt "key", PStr object_key)])])]])].

(* ================================================================= *)
(** ** [lambda_handler] *)

(** [json.dumps] of a string, with the default [ensure_ascii=True]:
    the quote and the backslash are escaped, the control characters
    [\b \f \n \r \t] have their short forms, and every other character
    outside [' '..'~'] is written [\u00xx] with lower-case digits. *)
Definition quote : ascii := "034"%char.
Definition backslash : ascii := "\"%char.

Definition hex_digit (n : nat) : ascii :=
  nth n (txt "0123456789abcdef") "0"%char.

Definition printable (c : ascii) : bool :=
  let n := nat_of_ascii c in (32 <=? n)%nat && (n <=? 126)%nat.

Definition json_escape (c : ascii) : text :=
  let n := nat_of_ascii c in
  if Ascii.eqb c quote then [backslash; quote]
  else if Ascii.eqb c backslash then [backslash; backslash]
  else if (n =? 8)%nat then [backslash; "b"%char]
  else if (n =? 12)%nat then [backslash; "f"%char]
  else if (n =? 10)%nat then [backslash; "n"%char]
  else if (n =? 13)%nat then [backslash; "r"%char]
  else if (n =? 9)%nat then [backslash; "t"%char]
  else if printable c then [c]
  else [backslash; "u"%char; "0"%char; "0"%char;
        hex_digit (n / 16); hex_digit (n mod 16)].

Definition json_string (s : text) : text :=
  quote :: flat_map json_escape s ++ [quote].

(** [json.dumps({'redacted_text': redacted_text})], with the default
    separators. *)
Definition response_body (redacted_text : text) : text :=
  txt "{" ++ json_string (txt "redacted_text") ++ txt ": " ++
  json_string redacted_text ++ txt "}".

(** Reading the escapes back, to show that the coding loses nothing. *)
Definition hex_value (c : ascii) : nat :=
  let n := nat_of_ascii c in
  if (n <=? 57)%nat then (n - 48)%nat else (n - 87)%nat.

Definition unescape_short (c : ascii) : ascii :=
  if Ascii.eqb c "b"%char then "008"%char
  else if Ascii.eqb c "f"%char then "012"%char
  else if Ascii.eqb c "n"%char then "010"%char
  else if Ascii.eqb c "r"%char then "013"%char
  else if Ascii.eqb c "t"%char then "009"%char
  else c.

Fixpoint json_unescape (s : text) : text :=
  match s with
  | [] => []
  | c :: s1 =>
      if Ascii.eqb c backslash then
        match s1 with
        | [] => []
        | e :: s2 =>
            if Ascii.eqb e "u"%char then
              match s2 with
              | _ :: _ :: h :: l :: s3 =>
                  ascii_of_nat (16 * hex_value h + hex_value l)
                  :: json_unescape s3
              | _ => []
              end
            else unescape_short e :: json_unescape s2
        end
      else c :: json_unescape s1
  end.

Record response : Type := {
  statusCode : Z;
  body : text
}.

Section Handler.

(** What the services hand over and the program only passes on: the
    parsed secret, the credentials, the bytes of the image, an
    annotation of the text detection. *)
Variables secret_info credentials_t image_bytes annotation : Type.

(** The world outside the program, one field for each call that leaves
    it.  Every call returns or raises an exception (a subclass of
    [Exception]). *)
Record services : Type := {
  environ : list (text * text);                       (* os.environ *)
  secretsmanager_client : text -> outcome unit;       (* by region *)
  secret_string : text -> outcome text;
    (* client.get_secret_value(SecretId=..)['SecretString'] *)
  json_loads : text -> outcome secret_info;
  from_service_account_info : secret_info -> outcome credentials_t;
  s3_in : text -> s3_service;                         (* by region *)
  ImageAnnotatorClient : credentials_t -> outcome unit;
  read_binary : text -> outcome image_bytes;
    (* open(path, 'rb') and read() *)
  text_annotations : image_bytes -> outcome (list annotation);
    (* client.text_detection(image=vision.Image(content=..))
       .text_annotations *)
  description : annotation -> text;
  truthy : annotation -> bool;                        (* bool(texts) *)
  comprehend_client : text -> outcome unit;           (* by region *)
  detect_pii_entities : text -> outcome (list entity)
    (* comprehend.detect_pii_entities(Text=.., LanguageCode='en')
       ['Entities'] *)
}.

Variable sv : services.

(** [os.environ[name]] *)
Fixpoint environ_lookup (env : list (text * text)) (name : text)
  : outcome text :=
  match env with
  | [] => Raises "KeyError"
  | (k, v) :: env' =>
      if text_eqb k name then Returns v else environ_lookup env' name
  end.

(** [get_secret]: the handler [except Exception as e: raise e] raises
    again what it caught. *)
Definition get_secret (secret_name region : text) : outcome secret_info :=
  bind (secretsmanager_client sv region) (fun _ =>
  match bind (secret_string sv secret_name) (json_loads sv) with
  | Returns info => Returns info
  | Raises e => Raises e
  end).

(** [extract_text_from_image]: [image_path] is what [download_photo]
    returned, a path or [None]; [open(None, 'rb')] raises [TypeError];
    [text_annotations[0]] raises [IndexError] on an empty list. *)
Definition extract_text_from_image (image_path : option text)
  (credentials : credentials_t) : outcome text :=
  bind (ImageAnnotatorClient sv credentials) (fun _ =>
  bind (match image_path with
        | Some path => read_binary sv path
        | None => Raises "TypeError"
        end) (fun content =>
  bind (text_annotations sv content) (fun annotations =>
  bind (match annotations with
        | texts :: _ => Returns texts
        | [] => Raises "IndexError"
        end) (fun texts =>
  Returns (if truthy sv texts then description sv texts else []))))).

(** [detect_pii_with_comprehend] *)
Definition detect_pii_with_comprehend (t region : text)
  : outcome (list entity) :=
  bind (comprehend_client sv region) (fun _ =>
  bind (detect_pii_entities sv t) (fun entities =>
  Returns (detect_filter entities))).

(** [lambda_handler(event, context)] *)
Definition lambda_handler (event : pyval) : outcome response :=
  bind (environ_lookup (environ sv) (txt "SECRET_NAME")) (fun secret_name =>
  bind (environ_lookup (environ sv) (txt "AWS_REGION")) (fun region =>
  bind (get_secret secret_name region) (fun credentials_dict =>
  bind (from_service_account_info sv credentials_dict) (fun credentials =>
  bind (download_photo (s3_in sv region) event) (fun download_path =>
  bind (extract_text_from_image download_path credentials)
    (fun extracted_text =>
  bind (detect_pii_with_comprehend extracted_text region)
    (fun pii_entities =>
  bind (call_redact_pii extracted_text pii_entities) (fun redacted_text =>
  Returns {| statusCode := 200;
             body := response_body redacted_text |})))))))).

End Handler.

Arguments environ {_ _ _ _} _.
Arguments s3_in {_ _ _ _} _ _.
Arguments ImageAnnotatorClient {_ _ _ _} _ _.
Arguments from_service_account_info {_ _ _ _} _ _.
Arguments read_binary {_ _ _ _} _ _.
Arguments text_annotations {_ _ _ _} _ _.
Arguments description {_ _ _ _} _ _.
Arguments truthy {_ _ _ _} _ _.
Arguments detect_pii_entities {_ _ _ _} _ _.
Arguments comprehend_client {_ _ _ _} _ _.
Arguments get_secret {_ _ _ _} _ _ _.
Arguments extract_text_from_image {_ _ _ _} _ _ _.
Arguments detect_pii_with_comprehend {_ _ _ _} _ _ _.
Arguments lambda_handler {_ _ _ _} _ _.

(** Services that all answer, for one image with the text [ocr] and
    the entities [found]. *)
Definition answering (s3 : s3_service) (ocr : list text)
  (found : list entity) : services unit unit unit text :=
  {| environ := [(txt "SECRET_NAME", txt "vision-key");
                 (txt "AWS_REGION", txt "eu-west-1")];
     secretsmanager_client := fun _ => Returns tt;
     secret_string := fun _ => Returns (txt "{}");
     json_loads := fun _ => Returns tt;
     from_service_account_info := fun _ => Returns tt;
     s3_in := fun _ => s3;
     ImageAnnotatorClient := fun _ => Returns tt;
     read_binary := fun _ => Returns tt;
     text_annotations := fun _ => Returns ocr;
     description := fun a => a;
     truthy := fun a => negb (text_eqb a []);
     comprehend_client := fun _ => Returns tt;
     detect_pii_entities := fun _ => Returns found |}.

Definition s3_answering : s3_service :=
  {| boto3_client_s3 := Returns tt;
     head_object := fun _ _ => Returns tt;
     download_file := fun _ _ _ => Returns tt |}.

Definition s3_object_missing : s3_service :=
  {| boto3_client_s3 := Returns tt;
     head_object := fun _ _ => Raises "ClientError";
     download_file := fun _ _ _ => Returns tt |}.

(* ================================================================= *)
(** ** Characters *)

Lemma newline_not_mask c : is_newline c = true -> is_mask c = false.
Proof.
  unfold is_newline, is_mask. intros H.
  apply Ascii.eqb_eq in H. subst c. reflexivity.
Qed.

Lemma newline_not_digit c : is_newline c = true -> is_digit c = false.
Proof.
  unfold is_newline. intros H.
  apply Ascii.eqb_eq in H. subst c. reflexivity.
Qed.

Lemma mask_not_digit c : is_mask c = true -> is_digit c = false.
Proof.
  unfold is_mask. intros H.
  apply Ascii.eqb_eq in H. subst c. reflexivity.
Qed.

Lemma mask_not_newline c : is_mask c = true -> is_newline c = false.
Proof.
  intros H. destruct (is_newline c) eqn:E; [|reflexivity].
  apply newline_not_mask in E. congruence.
Qed.

Lemma digit_not_newline c : is_digit c = true -> is_newline c = false.
Proof.
  intros H. destruct (is_newline c) eqn:E; [|reflexivity].
  apply newline_not_digit in E. congruence.
Qed.

(* ================================================================= *)
(** ** The backtracking search finds [pattern_end] *)

Lemma hd_error_app {A : Type} (l1 l2 : list A) :
  hd_error (l1 ++ l2) =
  match hd_error l1 with Some x => Some x | None => hd_error l2 end.
Proof. destruct l1; reflexivity. Qed.

Lemma star_run_digits s :
  hd_error (star_run Digit s) = Some (drop_digits s).
Proof.
  induction s as [|c s IH]; simpl; [reflexivity|].
  destruct (is_digit c); [|reflexivity].
  rewrite hd_error_app, IH. reflexivity.
Qed.

Lemma mask_digits_run s :
  hd_error (flat_map (run (Plus Digit)) (star_run (Lit mask) s)) =
  mask_run_end (mask :: s).
Proof.
  induction s as [|d s IH]; [reflexivity|].
  cbn [star_run accepts].
  change (mask_run_end (mask :: d :: s)) with
    (if is_digit d then Some (drop_digits (d :: s))
     else mask_run_end (d :: s)).
  destruct (Ascii.eqb d mask) eqn:E.
  - rewrite flat_map_app, hd_error_app, IH.
    pose proof (mask_not_digit d E) as Hd.
    apply Ascii.eqb_eq in E. subst d.
    cbn [flat_map run plus_run accepts]. rewrite Hd.
    destruct (mask_run_end (mask :: s)); reflexivity.
  - cbn [flat_map run plus_run accepts mask_run_end].
    unfold is_mask. rewrite E.
    destruct (is_digit d) eqn:Hd.
    + rewrite app_nil_r, star_run_digits. cbn [drop_digits].
      rewrite Hd. reflexivity.
    + reflexivity.
Qed.

Lemma rx_match_mask_digits s :
  rx_match (Cat (Plus (Lit mask)) (Plus Digit)) s = mask_run_end s.
Proof.
  unfold rx_match. destruct s as [|c s]; [reflexivity|].
  cbn [run plus_run accepts].
  destruct (Ascii.eqb c mask) eqn:E.
  - apply Ascii.eqb_eq in E. subst c. apply mask_digits_run.
  - cbn [mask_run_end]. unfold is_mask. rewrite E. reflexivity.
Qed.

Lemma rx_match_pattern s : rx_match pattern s = pattern_end s.
Proof.
  unfold rx_match, pattern.
  set (tl := Cat (Plus (Lit mask)) (Plus Digit)).
  change (run (Cat (Star Dot) tl) s)
    with (flat_map (run tl) (star_run Dot s)).
  assert (Htl : forall x, hd_error (run tl x ++ []) = mask_run_end x).
  { intros x. rewrite app_nil_r. apply rx_match_mask_digits. }
  induction s as [|c s IH]; [reflexivity|].
  cbn [star_run accepts pattern_end].
  destruct (is_newline c) eqn:E; cbn [negb].
  - cbn [flat_map]. rewrite Htl. cbn [mask_run_end].
    rewrite (newline_not_mask c E). reflexivity.
  - rewrite flat_map_app, hd_error_app, IH.
    destruct (pattern_end s); [reflexivity|].
    cbn [flat_map]. apply Htl.
Qed.

(* ================================================================= *)
(** ** Where the pattern matches *)

Lemma no_signature_no_mask_run s :
  has_signature s = false -> mask_run_end s = None.
Proof.
  induction s as [|c s IH]; [reflexivity|].
  cbn [has_signature mask_run_end]. intros H.
  apply orb_false_iff in H. destruct H as [Hp Hs].
  destruct (is_mask c); [|reflexivity].
  cbn [andb] in Hp. rewrite Hp. auto.
Qed.

Lemma no_signature_no_match s :
  has_signature s = false -> pattern_end s = None.
Proof.
  induction s as [|c s IH]; [reflexivity|].
  intros H. cbn [pattern_end].
  destruct (is_newline c); [reflexivity|].
  pose proof (no_signature_no_mask_run _ H) as Hm.
  cbn [has_signature] in H. apply orb_false_iff in H.
  rewrite (IH (proj2 H)). exact Hm.
Qed.

Lemma no_match_no_pair c s :
  pattern_end (c :: s) = None -> is_mask c && starts_with_digit s = false.
Proof.
  cbn [pattern_end mask_run_end]. intros H.
  destruct (is_mask c) eqn:Em; [|reflexivity].
  rewrite (mask_not_newline c Em) in H.
  destruct (pattern_end s); [discriminate|].
  destruct (starts_with_digit s); [discriminate|reflexivity].
Qed.

(** A match ends inside the text it was found in, and is not empty. *)
Lemma drop_digits_suffix s : exists pre, s = pre ++ drop_digits s.
Proof.
  induction s as [|c s [pre IH]]; [exists []; reflexivity|].
  cbn [drop_digits]. destruct (is_digit c).
  - exists (c :: pre). cbn. congruence.
  - exists []. reflexivity.
Qed.

Lemma mask_run_end_suffix s rest :
  mask_run_end s = Some rest -> exists c pre, s = c :: pre ++ rest.
Proof.
  revert rest. induction s as [|c s IH]; [discriminate|].
  intros rest. cbn [mask_run_end].
  destruct (is_mask c); [|discriminate].
  destruct (starts_with_digit s).
  - intros H. injection H as <-.
    destruct (drop_digits_suffix s) as [pre Hp].
    exists c, pre. congruence.
  - intros H. destruct (IH _ H) as (c' & pre & ->).
    exists c, (c' :: pre). reflexivity.
Qed.

Lemma pattern_match_consumes s rest :
  pattern_end s = Some rest -> exists c pre, s = c :: pre ++ rest.
Proof.
  revert rest. induction s as [|c s IH]; [discriminate|].
  intros rest. cbn [pattern_end].
  destruct (is_newline c); [discriminate|].
  destruct (pattern_end s) as [r|] eqn:E.
  - intros H. injection H as <-.
    destruct (IH _ eq_refl) as (c' & pre & ->).
    exists c, (c' :: pre). reflexivity.
  - apply mask_run_end_suffix.
Qed.

(* ================================================================= *)
(** ** The substitution, one step at a time *)

Lemma sub_from_skip r repl pre rest :
  sub_from r repl (length pre) (pre ++ rest) = sub_from r repl 0 rest.
Proof.
  induction pre as [|c pre IH]; [reflexivity|]. exact IH.
Qed.

Lemma redact_lines_nil : redact_lines [] = [].
Proof. reflexivity. Qed.

Lemma redact_lines_copy c s :
  pattern_end (c :: s) = None ->
  redact_lines (c :: s) = c :: redact_lines s.
Proof.
  intros H. unfold redact_lines, re_sub. cbn [sub_from].
  rewrite rx_match_pattern, H. reflexivity.
Qed.

Lemma redact_lines_match s rest :
  pattern_end s = Some rest ->
  redact_lines s = line_placeholder ++ redact_lines rest.
Proof.
  intros H. destruct (pattern_match_consumes _ _ H) as (c & pre & ->).
  unfold redact_lines, re_sub. cbn [sub_from].
  rewrite rx_match_pattern, H.
  replace (length (c :: pre ++ rest) - length rest)%nat
    with (S (length pre)).
  - rewrite sub_from_skip. reflexivity.
  - cbn [length]. rewrite length_app. lia.
Qed.

(** A text without the signature is copied as it is. *)
Lemma redact_lines_no_signature s :
  has_signature s = false -> redact_lines s = s.
Proof.
  induction s as [|c s IH]; [reflexivity|].
  intros H. rewrite redact_lines_copy.
  - cbn [has_signature] in H. apply orb_false_iff in H.
    rewrite (IH (proj2 H)). reflexivity.
  - apply no_signature_no_match, H.
Qed.

Lemma placeholder_then s :
  has_signature (line_placeholder ++ s) = has_signature s.
Proof. reflexivity. Qed.

Lemma redact_lines_head s :
  starts_with_digit (redact_lines s) = true -> starts_with_digit s = true.
Proof.
  destruct s as [|c s]; [discriminate|].
  destruct (pattern_end (c :: s)) as [rest|] eqn:E.
  - rewrite (redact_lines_match _ _ E). discriminate.
  - rewrite (redact_lines_copy _ _ E). trivial.
Qed.

(** The output of the line pass never holds the signature. *)
Lemma redact_lines_clean s : has_signature (redact_lines s) = false.
Proof.
  remember (length s) as n eqn:Hn.
  assert (Hle : (length s <= n)%nat) by lia. clear Hn.
  revert s Hle. induction n as [|n IH]; intros s Hle.
  - destruct s; [reflexivity|cbn in Hle; lia].
  - destruct s as [|c s]; [reflexivity|].
    cbn [length] in Hle.
    destruct (pattern_end (c :: s)) as [rest|] eqn:E.
    + rewrite (redact_lines_match _ _ E), placeholder_then.
      destruct (pattern_match_consumes _ _ E) as (c' & pre & Hs).
      apply IH. injection Hs as _ Hs.
      apply (f_equal (@length ascii)) in Hs.
      rewrite length_app in Hs. lia.
    + rewrite (redact_lines_copy _ _ E). cbn [has_signature].
      rewrite IH by lia. rewrite orb_false_r.
      pose proof (no_match_no_pair _ _ E) as Hp.
      destruct (is_mask c); [|reflexivity].
      cbn [andb] in *.
      destruct (starts_with_digit (redact_lines s)) eqn:Hd; [|reflexivity].
      apply redact_lines_head in Hd. congruence.
Qed.

(* ================================================================= *)
(** ** The signature, by lines and by runs *)

Lemma split_lines_first s :
  exists l ls, split_lines s = l :: ls /\
               starts_with_digit l = starts_with_digit s.
Proof.
  destruct s as [|c s]; [exists [], []; split; reflexivity|].
  cbn [split_lines]. destruct (is_newline c) eqn:E.
  - exists [], (split_lines s). split; [reflexivity|].
    cbn. symmetry. apply newline_not_digit, E.
  - destruct (split_lines s) as [|l ls].
    + exists [c], []. split; reflexivity.
    + exists (c :: l), ls. split; reflexivity.
Qed.

(** The signature never straddles a newline: a text holds it exactly
    when one of its lines does. *)
Lemma has_signature_lines s :
  has_signature s = existsb has_signature (split_lines s).
Proof.
  induction s as [|c s IH]; [reflexivity|].
  cbn [has_signature split_lines].
  destruct (is_newline c) eqn:E.
  - cbn [existsb has_signature]. rewrite (newline_not_mask c E), <- IH.
    reflexivity.
  - destruct (split_lines_first s) as (l & ls & Hsp & Hd).
    rewrite Hsp in *. cbn [existsb has_signature] in *.
    rewrite IH, Hd, orb_assoc. reflexivity.
Qed.

Lemma no_signature_lines s :
  (forall l, In l (split_lines s) -> has_signature l = false) ->
  has_signature s = false.
Proof.
  intros H. rewrite has_signature_lines.
  destruct (existsb has_signature (split_lines s)) eqn:E; [|reflexivity].
  apply existsb_exists in E. destruct E as (l & Hin & Hl).
  rewrite (H l Hin) in Hl. discriminate.
Qed.

Lemma has_signature_app_r pre s :
  has_signature s = true -> has_signature (pre ++ s) = true.
Proof.
  intros H. induction pre as [|c pre IH]; [exact H|].
  cbn [app has_signature]. rewrite IH. apply orb_true_r.
Qed.

Lemma has_signature_runs masks d rest :
  masks <> [] -> forallb is_mask masks = true -> is_digit d = true ->
  has_signature (masks ++ d :: rest) = true.
Proof.
  intros Hne Hm Hd. induction masks as [|m ms IH]; [congruence|].
  cbn [forallb] in Hm. apply andb_true_iff in Hm. destruct Hm as [Hm Hms].
  cbn [app has_signature]. destruct ms as [|m' ms].
  - cbn [app starts_with_digit]. rewrite Hm, Hd. reflexivity.
  - rewrite IH by (congruence || assumption). apply orb_true_r.
Qed.

(** [has_signature] decides the signature as the specification words
    it: one or more mask characters, then one or more digits, anywhere
    in the line. *)
Lemma has_signature_iff l : has_signature l = true <-> signature_in l.
Proof.
  split.
  - induction l as [|c s IH]; [discriminate|].
    cbn [has_signature]. intros H. apply orb_true_iff in H.
    destruct H as [H|H].
    + apply andb_true_iff in H. destruct H as [Hm Hd].
      destruct s as [|d s]; [discriminate|]. cbn in Hd.
      exists [], [c], [d], s. cbn [app forallb].
      rewrite Hm, Hd. repeat split; congruence.
    + destruct (IH H) as (pre & ms & ds & post & -> & Hrest).
      exists (c :: pre), ms, ds, post. split; [reflexivity|exact Hrest].
  - intros (pre & ms & ds & post & -> & Hne & Hm & Hdne & Hd).
    apply has_signature_app_r.
    destruct ds as [|d ds]; [congruence|].
    cbn [forallb] in Hd. apply andb_true_iff in Hd.
    cbn [app]. apply has_signature_runs; tauto.
Qed.

(* ================================================================= *)
(** ** The line pass, line by line *)

Lemma split_lines_line l x :
  no_newline l -> split_lines (l ++ newline :: x) = l :: split_lines x.
Proof.
  unfold no_newline. induction l as [|c l IH]; [reflexivity|].
  cbn [forallb app split_lines]. intros H.
  apply andb_true_iff in H. destruct H as [Hc Hl].
  apply negb_true_iff in Hc. rewrite Hc, (IH Hl). reflexivity.
Qed.

Lemma split_lines_single l : no_newline l -> split_lines l = [l].
Proof.
  unfold no_newline. induction l as [|c l IH]; [reflexivity|].
  cbn [forallb split_lines]. intros H.
  apply andb_true_iff in H. destruct H as [Hc Hl].
  apply negb_true_iff in Hc. rewrite Hc, (IH Hl). reflexivity.
Qed.

Lemma split_lines_no_newline s : Forall no_newline (split_lines s).
Proof.
  induction s as [|c s IH]; [repeat constructor|].
  cbn [split_lines]. destruct (is_newline c) eqn:E.
  - constructor; [reflexivity|exact IH].
  - destruct (split_lines s) as [|l ls]; [repeat constructor|].
    + unfold no_newline. cbn. rewrite E. reflexivity.
    + inversion IH; subst. constructor; [|assumption].
      unfold no_newline in *. cbn [forallb]. rewrite E. assumption.
Qed.

Lemma join_split_lines s : join_lines (split_lines s) = s.
Proof.
  induction s as [|c s IH]; [reflexivity|].
  cbn [split_lines]. destruct (is_newline c) eqn:E.
  - apply Ascii.eqb_eq in E. subst c.
    destruct (split_lines_first s) as (l & ls & Hsp & _).
    rewrite Hsp in *. cbn [join_lines app]. rewrite <- IH. reflexivity.
  - destruct (split_lines s) as [|l [|l' ls]]; cbn [join_lines] in *;
      rewrite <- IH; reflexivity.
Qed.

Lemma drop_digits_line l x :
  drop_digits (l ++ newline :: x) = drop_digits l ++ newline :: x.
Proof.
  induction l as [|c l IH]; [reflexivity|].
  cbn [app drop_digits]. destruct (is_digit c); [exact IH|reflexivity].
Qed.

Lemma starts_with_digit_line l x :
  starts_with_digit (l ++ newline :: x) = starts_with_digit l.
Proof. destruct l; reflexivity. Qed.

Lemma mask_run_end_line l x :
  mask_run_end (l ++ newline :: x) =
  option_map (fun rest => rest ++ newline :: x) (mask_run_end l).
Proof.
  induction l as [|c l IH]; [reflexivity|].
  cbn [app mask_run_end]. destruct (is_mask c); [|reflexivity].
  rewrite starts_with_digit_line.
  destruct (starts_with_digit l); [|exact IH].
  cbn [option_map]. rewrite drop_digits_line. reflexivity.
Qed.

(** The match depends on the line it starts in and on nothing after
    it. *)
Lemma pattern_end_line l x :
  no_newline l ->
  pattern_end (l ++ newline :: x) =
  option_map (fun rest => rest ++ newline :: x) (pattern_end l).
Proof.
  unfold no_newline. induction l as [|c l IH]; [reflexivity|].
  cbn [forallb]. intros H. apply andb_true_iff in H.
  destruct H as [Hc Hl]. apply negb_true_iff in Hc.
  cbn [app pattern_end]. rewrite Hc, (IH Hl).
  destruct (pattern_end l); [reflexivity|].
  cbn [option_map]. apply (mask_run_end_line (c :: l)).
Qed.

Lemma no_newline_app_inv pre rest :
  no_newline (pre ++ rest) -> no_newline rest.
Proof.
  unfold no_newline. rewrite forallb_app, andb_true_iff. tauto.
Qed.

Lemma redact_lines_line l x :
  no_newline l ->
  redact_lines (l ++ newline :: x) =
  redact_lines l ++ newline :: redact_lines x.
Proof.
  remember (length l) as n eqn:Hn.
  assert (Hle : (length l <= n)%nat) by lia. clear Hn.
  revert l Hle. induction n as [|n IH]; intros l Hle Hl.
  - destruct l; [|cbn in Hle; lia].
    apply redact_lines_copy. reflexivity.
  - destruct l as [|c l]; [apply redact_lines_copy; reflexivity|].
    cbn [length] in Hle.
    pose proof (pattern_end_line _ x Hl) as Hp.
    destruct (pattern_end (c :: l)) as [rest|] eqn:E; cbn [option_map] in Hp.
    + rewrite (redact_lines_match _ _ Hp), (redact_lines_match _ _ E).
      destruct (pattern_match_consumes _ _ E) as (c' & pre & Hs).
      rewrite IH.
      * rewrite app_assoc. reflexivity.
      * injection Hs as _ Hs. apply (f_equal (@length ascii)) in Hs.
        rewrite length_app in Hs. lia.
      * rewrite Hs in Hl. apply (no_newline_app_inv (c' :: pre)), Hl.
    + cbn [app] in *.
      rewrite (redact_lines_copy _ _ Hp), (redact_lines_copy _ _ E).
      rewrite IH; [reflexivity|lia|].
      apply (no_newline_app_inv [c]), Hl.
Qed.

Lemma redact_lines_joined ls :
  Forall no_newline ls ->
  redact_lines (join_lines ls) = join_lines (map redact_lines ls).
Proof.
  induction 1 as [|l ls Hl Hls IH]; [reflexivity|].
  destruct ls as [|l' ls]; [reflexivity|].
  change (join_lines (l :: l' :: ls))
    with (l ++ newline :: join_lines (l' :: ls)).
  rewrite (redact_lines_line _ _ Hl), IH. reflexivity.
Qed.

(** The line pass rewrites each line on its own: a line without the
    signature is kept, and a line with it becomes the placeholder
    followed by what the line holds after its last match. *)
Lemma redact_lines_by_line t :
  redact_lines t = join_lines (map redact_lines (split_lines t)).
Proof.
  rewrite <- redact_lines_joined by apply split_lines_no_newline.
  rewrite join_split_lines. reflexivity.
Qed.

Lemma pattern_end_tail c s :
  pattern_end (c :: s) = None -> is_newline c = false ->
  pattern_end s = None.
Proof.
  cbn [pattern_end]. intros H Hc. rewrite Hc in H.
  destruct (pattern_end s); [discriminate|reflexivity].
Qed.

Lemma pattern_end_drop_digits s :
  pattern_end s = None -> pattern_end (drop_digits s) = None.
Proof.
  induction s as [|c s IH]; [reflexivity|].
  intros H. cbn [drop_digits]. destruct (is_digit c) eqn:Hd; [|exact H].
  apply IH, (pattern_end_tail c), digit_not_newline, Hd. exact H.
Qed.

Lemma mask_run_is_match s rest :
  mask_run_end s = Some rest -> pattern_end s <> None.
Proof.
  destruct s as [|c s]; [discriminate|].
  intros H. cbn [pattern_end].
  assert (Hm : is_mask c = true).
  { cbn [mask_run_end] in H. destruct (is_mask c); [reflexivity|discriminate]. }
  rewrite (mask_not_newline c Hm).
  destruct (pattern_end s); [discriminate|]. rewrite H. discriminate.
Qed.

(** The match taken is the last one on its line: nothing matches at
    the place where it ends. *)
Lemma pattern_end_last s rest :
  pattern_end s = Some rest -> pattern_end rest = None.
Proof.
  induction s as [|c s IH]; [discriminate|].
  cbn [pattern_end]. destruct (is_newline c) eqn:Hc; [discriminate|].
  destruct (pattern_end s) as [r|] eqn:E.
  - intros H. injection H as <-. apply IH. reflexivity.
  - cbn [mask_run_end]. destruct (is_mask c); [|discriminate].
    destruct (starts_with_digit s).
    + intros H. injection H as <-. apply pattern_end_drop_digits, E.
    + intros H. apply mask_run_is_match in H. contradiction.
Qed.

Lemma line_signature_matches l :
  no_newline l -> pattern_end l = None -> has_signature l = false.
Proof.
  unfold no_newline. induction l as [|c l IH]; [reflexivity|].
  cbn [forallb]. intros H Hp. apply andb_true_iff in H.
  destruct H as [Hc Hl]. apply negb_true_iff in Hc.
  cbn [has_signature]. rewrite (no_match_no_pair _ _ Hp).
  apply IH; [exact Hl|]. apply (pattern_end_tail c); assumption.
Qed.

Lemma redact_lines_of_line l :
  no_newline l ->
  redact_lines l =
  match pattern_end l with
  | Some rest => line_placeholder ++ rest
  | None => l
  end.
Proof.
  intros Hl. destruct (pattern_end l) as [rest|] eqn:E.
  - rewrite (redact_lines_match _ _ E). f_equal.
    apply redact_lines_no_signature, line_signature_matches.
    + destruct (pattern_match_consumes _ _ E) as (c & pre & Hs).
      rewrite Hs in Hl. apply (no_newline_app_inv (c :: pre)), Hl.
    + apply (pattern_end_last _ _ E).
  - apply redact_lines_no_signature, line_signature_matches; assumption.
Qed.

(* ================================================================= *)
(** ** Slices *)

Lemma slice_index_in len i :
  0 <= i <= Z.of_nat len -> slice_index len i = Z.to_nat i.
Proof.
  intros H. unfold slice_index.
  destruct (Z.ltb_spec i 0); lia.
Qed.

Lemma slice_index_nonneg len i :
  0 <= i -> slice_index len i = Nat.min (Z.to_nat i) len.
Proof.
  intros H. unfold slice_index.
  destruct (Z.ltb_spec i 0); [lia|reflexivity].
Qed.

Lemma slice_to_from {A : Type} (s : list A) i :
  slice_to s i ++ slice_from s i = s.
Proof. apply firstn_skipn. Qed.

Lemma length_slice_to {A : Type} (s : list A) i :
  0 <= i <= Z.of_nat (length s) -> length (slice_to s i) = Z.to_nat i.
Proof.
  intros H. unfold slice_to.
  rewrite slice_index_in, length_firstn by exact H. lia.
Qed.

Lemma slice_to_prefix {A : Type} (s x : list A) b e :
  0 <= b <= e -> e <= Z.of_nat (length s) ->
  slice_to (slice_to s e ++ x) b = slice_to s b.
Proof.
  intros Hb He.
  assert (Hl : length (slice_to s e) = Z.to_nat e)
    by (apply length_slice_to; lia).
  unfold slice_to at 1.
  rewrite slice_index_in by (rewrite length_app, Hl; lia).
  rewrite firstn_app.
  replace (Z.to_nat b - length (slice_to s e))%nat with 0%nat by lia.
  cbn [firstn]. rewrite app_nil_r.
  unfold slice_to. rewrite !slice_index_in by lia.
  rewrite firstn_firstn. f_equal. lia.
Qed.

Lemma slice_from_prefix {A : Type} (s x : list A) e :
  0 <= e <= Z.of_nat (length s) ->
  slice_from (slice_to s e ++ x) e = x.
Proof.
  intros He.
  assert (Hl : length (slice_to s e) = Z.to_nat e)
    by (apply length_slice_to; lia).
  unfold slice_from.
  rewrite slice_index_in by (rewrite length_app, Hl; lia).
  rewrite skipn_app, <- Hl, skipn_all, Nat.sub_diag. reflexivity.
Qed.

Lemma slice_to_py_slice {A : Type} (s : list A) a b :
  0 <= a <= b -> b <= Z.of_nat (length s) ->
  slice_to s a ++ py_slice s a b = slice_to s b.
Proof.
  intros Ha Hb. unfold slice_to, py_slice.
  rewrite !slice_index_in by lia.
  replace (Z.to_nat b) with (Z.to_nat a + (Z.to_nat b - Z.to_nat a))%nat
    at 2 by lia.
  rewrite <- (firstn_skipn (Z.to_nat a) s) at 3.
  rewrite firstn_app, firstn_firstn, length_firstn.
  replace (Nat.min (Z.to_nat a + (Z.to_nat b - Z.to_nat a)) (Z.to_nat a))
    with (Z.to_nat a) by lia.
  f_equal. f_equal. lia.
Qed.

(* ================================================================= *)
(** ** The loop on spans laid out from left to right *)

Lemma chained_bound pos len asc : chained pos len asc -> pos <= len.
Proof.
  revert pos. induction asc as [|e r IH]; intros pos H; [exact H|].
  destruct H as (H1 & H2 & H3). apply IH in H3. lia.
Qed.

(** Taken from the right, every span still finds the text to its left
    untouched: the loop writes [spec_layout]. *)
Lemma fold_rev_chained t asc pos :
  0 <= pos -> chained pos (Z.of_nat (length t)) asc ->
  fold_left replace_span (rev asc) t =
  slice_to t pos ++ spec_layout t pos asc.
Proof.
  revert pos. induction asc as [|e r IH]; intros pos Hpos Hch.
  - cbn. symmetry. apply slice_to_from.
  - destruct Hch as (H1 & H2 & H3).
    pose proof (chained_bound _ _ _ H3) as Hb.
    cbn [rev]. rewrite fold_left_app. cbn [fold_left].
    rewrite (IH (EndOffset e)) by (lia || assumption).
    unfold replace_span.
    rewrite slice_to_prefix, slice_from_prefix by lia.
    cbn [spec_layout].
    rewrite (app_assoc (slice_to t pos)), slice_to_py_slice by lia.
    reflexivity.
Qed.

(* ================================================================= *)
(** ** [sorted(..., reverse=True)] *)

Lemma insert_desc_perm e l : Permutation (insert_desc e l) (e :: l).
Proof.
  induction l as [|y ys IH]; [reflexivity|].
  cbn [insert_desc]. destruct (BeginOffset e <? BeginOffset y).
  - rewrite IH. apply perm_swap.
  - reflexivity.
Qed.

Lemma sorted_desc_perm l : Permutation (sorted_desc l) l.
Proof.
  induction l as [|e l IH]; [reflexivity|].
  cbn [sorted_desc]. rewrite insert_desc_perm. now apply perm_skip.
Qed.

Lemma insert_desc_sorted e l :
  StronglySorted begins_not_before l ->
  StronglySorted begins_not_before (insert_desc e l).
Proof.
  induction 1 as [|y ys Hs IH Hy]; cbn [insert_desc].
  - repeat constructor.
  - destruct (Z.ltb_spec (BeginOffset e) (BeginOffset y)) as [Hlt|Hge].
    + constructor; [exact IH|].
      eapply Permutation_Forall.
      * symmetry. apply insert_desc_perm.
      * constructor; [unfold begins_not_before; lia|exact Hy].
    + constructor; [constructor; assumption|].
      constructor; [unfold begins_not_before; lia|].
      eapply Forall_impl; [|exact Hy].
      unfold begins_not_before. intros; lia.
Qed.

Lemma sorted_desc_sorted l :
  StronglySorted begins_not_before (sorted_desc l).
Proof.
  induction l as [|e l IH]; [constructor|].
  apply insert_desc_sorted, IH.
Qed.

(** Stability: the entities of any one [begin] come out in the order
    they came in. *)
Lemma insert_desc_stable k e l :
  filter (fun x => BeginOffset x =? k) (insert_desc e l) =
  filter (fun x => BeginOffset x =? k) (e :: l).
Proof.
  induction l as [|y ys IH]; [reflexivity|].
  cbn [insert_desc].
  destruct (Z.ltb_spec (BeginOffset e) (BeginOffset y)) as [Hlt|Hge];
    [|reflexivity].
  cbn [filter] in *. rewrite IH.
  destruct (Z.eqb_spec (BeginOffset y) k), (Z.eqb_spec (BeginOffset e) k);
    try reflexivity; lia.
Qed.

Lemma sorted_desc_stable k l :
  filter (fun x => BeginOffset x =? k) (sorted_desc l) =
  filter (fun x => BeginOffset x =? k) l.
Proof.
  induction l as [|e l IH]; [reflexivity|].
  cbn [sorted_desc]. rewrite insert_desc_stable.
  cbn [filter]. rewrite IH. reflexivity.
Qed.

(** With distinct keys the result does not depend on the order of the
    input. *)
Lemma insert_desc_comm a b l :
  BeginOffset a <> BeginOffset b ->
  insert_desc a (insert_desc b l) = insert_desc b (insert_desc a l).
Proof.
  intros Hab. induction l as [|y ys IH]; cbn [insert_desc].
  - destruct (Z.ltb_spec (BeginOffset a) (BeginOffset b)),
             (Z.ltb_spec (BeginOffset b) (BeginOffset a));
      try reflexivity; lia.
  - destruct (Z.ltb_spec (BeginOffset a) (BeginOffset y)),
             (Z.ltb_spec (BeginOffset b) (BeginOffset y));
      cbn [insert_desc];
      repeat match goal with
             | |- context [?x <? ?y] => destruct (Z.ltb_spec x y)
             end;
      try reflexivity; try lia.
    rewrite IH. reflexivity.
Qed.

Lemma sorted_desc_permutation l l' :
  Permutation l l' -> distinct_begins l -> sorted_desc l = sorted_desc l'.
Proof.
  unfold distinct_begins.
  induction 1 as [|x l l' Hp IH|x y l|l l' l'' Hp1 IH1 Hp2 IH2];
    intros Hnd.
  - reflexivity.
  - cbn [sorted_desc]. cbn [map] in Hnd.
    rewrite IH; [reflexivity|]. now inversion Hnd.
  - cbn [sorted_desc]. apply insert_desc_comm.
    cbn [map] in Hnd. inversion Hnd as [|? ? Hnin _]; subst.
    cbn [In] in Hnin. intros Heq. apply Hnin. left. congruence.
  - rewrite IH1 by exact Hnd. apply IH2.
    eapply Permutation_NoDup; [|exact Hnd].
    apply Permutation_map, Hp1.
Qed.

Lemma sorted_strict l :
  StronglySorted begins_not_before l -> distinct_begins l ->
  StronglySorted (fun a b => begins_before b a) l.
Proof.
  unfold distinct_begins.
  induction 1 as [|a l Hs IH Ha]; intros Hnd; [constructor|].
  cbn [map] in Hnd. inversion Hnd as [|? ? Hnin Hnd']; subst.
  constructor; [apply IH, Hnd'|].
  rewrite Forall_forall in *. intros x Hx.
  specialize (Ha x Hx). unfold begins_not_before, begins_before in *.
  assert (BeginOffset a <> BeginOffset x).
  { intros Heq. apply Hnin. rewrite Heq. apply in_map, Hx. }
  lia.
Qed.

Lemma StronglySorted_snoc {A : Type} (R : A -> A -> Prop) l a :
  StronglySorted R l -> Forall (fun x => R x a) l ->
  StronglySorted R (l ++ [a]).
Proof.
  induction 1 as [|y ys Hs IH Hy]; intros Hf; cbn [app].
  - repeat constructor.
  - inversion Hf; subst. constructor; [apply IH; assumption|].
    apply Forall_app. split; [exact Hy|]. repeat constructor. assumption.
Qed.

Lemma StronglySorted_rev_flip {A : Type} (R : A -> A -> Prop) l :
  StronglySorted (fun a b => R b a) l -> StronglySorted R (rev l).
Proof.
  induction 1 as [|y ys Hs IH Hy]; [constructor|].
  cbn [rev]. apply StronglySorted_snoc; [exact IH|].
  apply Forall_rev. exact Hy.
Qed.

(** Valid spans that do not overlap, taken by increasing [begin], are
    laid out from left to right. *)
Lemma chained_of_sorted t asc pos :
  StronglySorted begins_before asc ->
  (forall x y, In x asc -> In y asc -> x = y \/ disjoint x y \/ disjoint y x) ->
  Forall (valid_span t) asc ->
  pos <= Z.of_nat (length t) ->
  (forall x, In x asc -> pos <= BeginOffset x) ->
  chained pos (Z.of_nat (length t)) asc.
Proof.
  intros Hs. revert pos.
  induction Hs as [|a r Hs IH Ha]; intros pos Hdis Hval Hpos Hlow.
  - exact Hpos.
  - inversion Hval as [|? ? Hva Hvr]; subst.
    destruct Hva as (V1 & V2 & V3).
    cbn [chained]. split; [apply Hlow; now left|]. split; [exact V2|].
    apply IH; [| exact Hvr | exact V3 |].
    + intros x y Hx Hy. apply Hdis; now right.
    + intros x Hx. rewrite Forall_forall in Ha, Hvr.
      specialize (Ha x Hx). destruct (Hvr x Hx) as (W1 & W2 & W3).
      unfold begins_before in Ha.
      destruct (Hdis a x (or_introl eq_refl) (or_intror Hx))
        as [Heq|[Hd|Hd]].
      * subst x. lia.
      * unfold disjoint in Hd. lia.
      * unfold disjoint in Hd. lia.
Qed.

(** Where the line pass changes nothing, the offsets are applied to
    the text they were computed on. *)
Lemma redact_pii_unmasked t l :
  has_signature t = false -> redact_pii t l = redact_entities t l.
Proof.
  intros H. unfold redact_pii. rewrite redact_lines_no_signature by exact H.
  reflexivity.
Qed.

Lemma redact_entities_fold t l :
  redact_entities t l = fold_left replace_span (sorted_desc l) t.
Proof. destruct l; reflexivity. Qed.

(* ================================================================= *)
(** ** The entity filter *)

Lemma text_eqb_eq a b : text_eqb a b = true <-> a = b.
Proof.
  revert b. induction a as [|x a IH]; intros [|y b]; cbn [text_eqb];
    try (split; (discriminate || reflexivity)).
  rewrite andb_true_iff, IH, Ascii.eqb_eq.
  split; [intros [-> ->]; reflexivity|]. intros H. now injection H.
Qed.

Lemma detect_filter_in l e :
  In e (detect_filter l) <-> In e l /\ EType e <> excluded_kind.
Proof.
  unfold detect_filter. rewrite filter_In, negb_true_iff.
  rewrite <- not_true_iff_false, text_eqb_eq. reflexivity.
Qed.

Lemma detect_filter_without full base :
  without_excluded full base -> detect_filter full = base.
Proof.
  induction 1 as [|e full base Hk _ IH|e full base Hk _ IH];
    unfold detect_filter in *; cbn [filter].
  - reflexivity.
  - destruct (text_eqb (EType e) excluded_kind) eqn:E.
    + apply text_eqb_eq in E. contradiction.
    + cbn [negb]. congruence.
  - apply text_eqb_eq in Hk. rewrite Hk. exact IH.
Qed.

(** Spans that are not empty and do not overlap begin at different
    places. *)
Lemma nonempty_disjoint_distinct l :
  Forall nonempty_span l -> pairwise_disjoint l -> distinct_begins l.
Proof.
  unfold pairwise_disjoint, distinct_begins.
  intros Hne Hd. induction Hd as [|a l Ha Hd IH]; cbn [map].
  - constructor.
  - inversion Hne as [|? ? Hna Hnl]; subst.
    constructor; [|apply IH, Hnl].
    rewrite in_map_iff. intros (x & Heq & Hx).
    rewrite Forall_forall in Ha, Hnl.
    specialize (Ha x Hx). specialize (Hnl x Hx).
    unfold disjoint, nonempty_span in *. lia.
Qed.

(* ================================================================= *)
(** * The claims *)

(** Facts about a span list that is written out: validity, disjointness,
    distinct [begin]s. *)
Ltac concrete_spans :=
  repeat constructor;
  unfold valid_span, disjoint, inverted, nonneg_offsets;
  cbn; intuition lia.

Example two_spans_of_three_words :
  redact_entities (txt "AAA BBB CCC")
    [mkEntity (txt "X") 0 3; mkEntity (txt "Y") 8 11]
  = txt "[REDACTED X] BBB [REDACTED Y]".
Proof. reflexivity. Qed.

Example masked_line_among_others :
  redact_lines (txt "Ann" ++ newline :: txt "acct ***1234" ++
                newline :: txt "***")
  = txt "Ann" ++ newline :: txt "[REDACTED LINE]" ++ newline :: txt "***".
Proof. reflexivity. Qed.

(** ** C1.  Offsets computed on the original text should stay valid on
    the text the line pass has rewritten, each substitution replacing
    what the detector annotated.  [redact_pii] applies them unchanged to
    the rewritten text: with the masked line ["a*1"] before the name,
    the span [4, 8) of ["John"] lands inside the line placeholder and
    the name is left in the output. *)
Theorem offsets_not_remapped_after_line_pass :
  let t := txt "a*1" ++ newline :: txt "John" in
  let spans := [mkEntity (txt "NAME") 4 8] in
  Forall (valid_span t) spans /\
  py_slice t 4 8 = txt "John" /\
  redact_lines t = txt "[REDACTED LINE]" ++ newline :: txt "John" /\
  redact_pii t spans =
    txt "[RED[REDACTED NAME]D LINE]" ++ newline :: txt "John" /\
  handler_redaction t spans = redact_pii t spans.
Proof.
  cbv zeta. split; [concrete_spans|]. repeat split; reflexivity.
Qed.

(** ** C2.  A line holding the signature should be replaced whole by
    ["[REDACTED LINE]"], the text after the digits included.  The
    pattern ends at the digits: on ["***123 xyz"] the match stops after
    ["123"] and [" xyz"] is kept. *)
Theorem line_tail_survives :
  let t := txt "***123 xyz" in
  split_lines t = [t] /\ has_signature t = true /\
  redact_lines t = txt "[REDACTED LINE] xyz".
Proof. cbv zeta. repeat split; reflexivity. Qed.

(** ** C3.  As stated (valid, pairwise non-overlapping spans give one
    placeholder per span, each in its place, the rest verbatim) the
    claim fails when an empty span shares its [begin] with a span listed
    after it: no arrangement of the two spans gives the output. *)
Lemma empty_span_breaks_layout :
  let t := txt "abcdefgh" in
  let spans := [mkEntity (txt "E") 3 3; mkEntity (txt "N") 3 5] in
  Forall (valid_span t) spans /\ pairwise_disjoint spans /\
  redact_entities t spans = txt "abc[REDACTED N]EDACTED E]defgh" /\
  ~ exists asc, Permutation asc spans /\
                redact_entities t spans = spec_layout t 0 asc.
Proof.
  cbv zeta. split; [concrete_spans|]. split; [concrete_spans|].
  split; [reflexivity|].
  intros (asc & Hp & Heq).
  apply Permutation_sym, Permutation_length_2_inv in Hp.
  destruct Hp as [-> | ->]; vm_compute in Heq; discriminate.
Qed.

(** C3, amended.  For valid, pairwise non-overlapping spans with
    pairwise distinct [begin]s, the entity pass writes the text with
    each span's range replaced by its placeholder: taking the spans
    from left to right, the output is the text up to the first span,
    its placeholder, the text between it and the next span, and so on,
    then the text after the last span. *)
Theorem redact_entities_layout (t : text) (spans : list entity) :
  Forall (valid_span t) spans ->
  pairwise_disjoint spans ->
  distinct_begins spans ->
  exists asc, Permutation asc spans /\
              StronglySorted begins_before asc /\
              redact_entities t spans = spec_layout t 0 asc.
Proof.
  intros Hval Hdis Hnd.
  exists (rev (sorted_desc spans)).
  assert (Hperm : Permutation (rev (sorted_desc spans)) spans).
  { rewrite <- Permutation_rev. apply sorted_desc_perm. }
  assert (Hsort : StronglySorted begins_before (rev (sorted_desc spans))).
  { apply StronglySorted_rev_flip, sorted_strict.
    - apply sorted_desc_sorted.
    - unfold distinct_begins in *.
      eapply Permutation_NoDup; [|exact Hnd].
      apply Permutation_map. symmetry. apply sorted_desc_perm. }
  split; [exact Hperm|]. split; [exact Hsort|].
  rewrite redact_entities_fold.
  rewrite <- (rev_involutive (sorted_desc spans)) at 1.
  rewrite (fold_rev_chained t _ 0); [reflexivity|lia|].
  apply chained_of_sorted.
  - exact Hsort.
  - intros x y Hx Hy. apply (ForallOrdPairs_In Hdis).
    + eapply Permutation_in; [exact Hperm|exact Hx].
    + eapply Permutation_in; [exact Hperm|exact Hy].
  - eapply Permutation_Forall; [symmetry; exact Hperm|exact Hval].
  - lia.
  - intros x Hx.
    assert (Hin : In x spans) by (eapply Permutation_in; eassumption).
    rewrite Forall_forall in Hval. destruct (Hval x Hin). lia.
Qed.

Lemma redact_entities_layout_witness :
  let t := txt "AAA BBB CCC" in
  let spans := [mkEntity (txt "X") 0 3; mkEntity (txt "Y") 8 11] in
  exists asc, Permutation asc spans /\
              StronglySorted begins_before asc /\
              redact_entities t spans = spec_layout t 0 asc.
Proof.
  cbv zeta. apply redact_entities_layout; concrete_spans.
Defined.

Lemma slice_from_split {A : Type} (s : list A) a b :
  0 <= a <= b -> b <= Z.of_nat (length s) ->
  slice_from s a = py_slice s a b ++ slice_from s b.
Proof.
  intros Ha Hb. unfold slice_from, py_slice.
  rewrite !slice_index_in by lia.
  rewrite <- (firstn_skipn (Z.to_nat b - Z.to_nat a) (skipn (Z.to_nat a) s))
    at 1.
  rewrite skipn_skipn. do 2 f_equal. lia.
Qed.

(** ** C4.  As stated (a span with [begin > end] raises
    [InvalidSpanError] and nothing is output) the claim fails: the
    program has no such error and no check of the offsets.  With
    [begin = 10] and [end = 5] the call returns, and the output repeats
    the characters at [5, 10) after the placeholder. *)
Lemma inverted_span_returns :
  let t := txt "0123456789abcdef" in
  let spans := [mkEntity (txt "X") 10 5] in
  Exists inverted spans /\
  call_redact_pii t spans <> Raises "InvalidSpanError" /\
  call_redact_pii t spans = Returns (txt "0123456789[REDACTED X]56789abcdef").
Proof.
  cbv zeta. split; [left; unfold inverted; cbn; lia|].
  split; [discriminate|reflexivity].
Qed.

Lemma sorted_desc_around e spans :
  In e spans -> exists before after, sorted_desc spans = before ++ e :: after.
Proof.
  intros H. apply in_split.
  eapply Permutation_in; [symmetry; apply sorted_desc_perm|exact H].
Qed.

(** C4, amended.  A span list that holds a span with [begin > end] is
    not rejected: the call returns the text the loop builds, in which
    that span takes its turn like any other, after the spans sorted
    before it and before those sorted after it.  At its turn, on the
    current text [cur] and with [0 <= end < begin <= len(cur)], the two
    slices remove nothing: the result is [cur[:begin]], the
    placeholder, then [cur[end:begin]] and [cur[begin:]].  For a list
    of that one span, this is the output. *)
Theorem inverted_span_not_rejected
  (t : text) (spans : list entity) (e : entity) :
  In e spans -> inverted e ->
  (exists before after,
      sorted_desc spans = before ++ e :: after /\
      let cur := fold_left replace_span before (redact_lines t) in
      call_redact_pii t spans =
        Returns (fold_left replace_span after (replace_span cur e)) /\
      (0 <= EndOffset e -> BeginOffset e <= Z.of_nat (length cur) ->
       replace_span cur e =
         slice_to cur (BeginOffset e) ++ placeholder e ++
         py_slice cur (EndOffset e) (BeginOffset e) ++
         slice_from cur (BeginOffset e))) /\
  (spans = [e] ->
   0 <= EndOffset e ->
   BeginOffset e <= Z.of_nat (length (redact_lines t)) ->
   call_redact_pii t spans =
     Returns (let cur := redact_lines t in
              slice_to cur (BeginOffset e) ++ placeholder e ++
              py_slice cur (EndOffset e) (BeginOffset e) ++
              slice_from cur (BeginOffset e))).
Proof.
  intros Hin Hinv. unfold inverted in Hinv.
  assert (Hstep : forall cur,
             0 <= EndOffset e -> BeginOffset e <= Z.of_nat (length cur) ->
             replace_span cur e =
               slice_to cur (BeginOffset e) ++ placeholder e ++
               py_slice cur (EndOffset e) (BeginOffset e) ++
               slice_from cur (BeginOffset e)).
  { intros cur He Hb. unfold replace_span.
    rewrite (slice_from_split cur (EndOffset e) (BeginOffset e)) by lia.
    reflexivity. }
  split.
  - destruct (sorted_desc_around e spans Hin) as (before & after & Hs).
    exists before, after. split; [exact Hs|]. cbv zeta. split.
    + unfold call_redact_pii, redact_pii.
      rewrite redact_entities_fold, Hs, fold_left_app. reflexivity.
    + apply Hstep.
  - intros -> He Hb. cbv zeta. unfold call_redact_pii, redact_pii.
    cbn [redact_entities sorted_desc insert_desc fold_left].
    rewrite (Hstep _ He Hb). reflexivity.
Qed.

Lemma inverted_span_not_rejected_witness :
  let t := txt "0123456789abcdef" in
  let e := mkEntity (txt "X") 10 5 in
  call_redact_pii t [e] =
    Returns (txt "0123456789" ++ placeholder e ++ txt "56789" ++
             txt "abcdef").
Proof.
  cbv zeta.
  destruct (inverted_span_not_rejected
              (txt "0123456789abcdef") [mkEntity (txt "X") 10 5]
              (mkEntity (txt "X") 10 5)) as [_ Hone].
  - left. reflexivity.
  - unfold inverted. cbn. lia.
  - apply Hone; [reflexivity|cbn; lia|cbn; lia].
Defined.

(** ** C5.  As stated (ties on [begin] broken by [end] descending, the
    broader span first) the claim fails: the sort key is [BeginOffset]
    alone and the sort is stable, so two spans with the same [begin]
    are taken in the order of the input, here the narrower first. *)
Lemma tie_keeps_input_order :
  let spans := [mkEntity (txt "A") 3 5; mkEntity (txt "B") 3 8] in
  sorted_desc spans = spans /\
  ~ StronglySorted spec_order (sorted_desc spans).
Proof.
  cbv zeta. split; [reflexivity|].
  intros H. cbn in H. apply StronglySorted_inv in H. destruct H as [_ H].
  inversion H as [|? ? Hab _]; subst.
  unfold spec_order in Hab. cbn in Hab. lia.
Qed.

(** C5, amended.  The spans are applied in the order of a stable sort on
    [begin] descending: the order is a rearrangement of the list, no
    span comes before one with a greater [begin], and spans with the
    same [begin] keep the order they have in the input. *)
Theorem spans_applied_by_begin_descending (t : text) (spans : list entity) :
  redact_entities t spans = fold_left replace_span (sorted_desc spans) t /\
  Permutation (sorted_desc spans) spans /\
  StronglySorted begins_not_before (sorted_desc spans) /\
  (forall k, filter (fun e => BeginOffset e =? k) (sorted_desc spans) =
             filter (fun e => BeginOffset e =? k) spans).
Proof.
  split; [apply redact_entities_fold|].
  split; [apply sorted_desc_perm|].
  split; [apply sorted_desc_sorted|].
  intros k. apply sorted_desc_stable.
Qed.

(** ** C6.  Entities of the excluded kind ["IP_ADDRESS"] make no
    difference: filtering a list gives the list with them never there,
    so redacting after the filter gives the same output; the filter
    keeps exactly the entities of every other kind. *)
Theorem excluded_kind_makes_no_difference
  (t : text) (full base : list entity) :
  without_excluded full base ->
  detect_filter full = base /\
  handler_redaction t full = redact_pii t base /\
  (forall e, In e (detect_filter full) <->
             In e full /\ EType e <> excluded_kind).
Proof.
  intros H. pose proof (detect_filter_without _ _ H) as Hf.
  split; [exact Hf|]. split.
  - unfold handler_redaction. rewrite Hf. reflexivity.
  - intros e. apply detect_filter_in.
Qed.

Lemma excluded_kind_makes_no_difference_witness :
  let t := txt "ping 10.0.0.1 from Ann" in
  let ip := mkEntity (txt "IP_ADDRESS") 5 13 in
  let name := mkEntity (txt "NAME") 19 22 in
  detect_filter [ip; name] = [name] /\
  handler_redaction t [ip; name] = redact_pii t [name] /\
  (forall e, In e (detect_filter [ip; name]) <->
             In e [ip; name] /\ EType e <> excluded_kind).
Proof.
  cbv zeta. apply excluded_kind_makes_no_difference.
  apply wo_drop; [reflexivity|].
  apply wo_keep; [discriminate|]. apply wo_nil.
Defined.

(** ** C7.  A text none of whose lines holds the mask-and-digit
    signature, redacted with no entity, comes back unchanged. *)
Theorem unmasked_text_without_entities_unchanged (T : text) :
  (forall l, In l (split_lines T) -> has_signature l = false) ->
  redact_pii T [] = T.
Proof.
  intros H. unfold redact_pii. cbn [redact_entities].
  apply redact_lines_no_signature, no_signature_lines, H.
Qed.

Lemma unmasked_text_without_entities_unchanged_witness :
  let T := txt "card ***" ++ newline :: txt "12 x*y 7" in
  split_lines T = [txt "card ***"; txt "12 x*y 7"] /\
  redact_pii T [] = T.
Proof.
  cbv zeta. split; [reflexivity|].
  apply unmasked_text_without_entities_unchanged.
  intros l [<-|[<-|[]]]; reflexivity.
Defined.

(** ** C8.  The line pass is idempotent: its output holds no signature,
    the placeholder least of all, so a second pass changes nothing. *)
Theorem redact_lines_idempotent (T : text) :
  redact_lines (redact_lines T) = redact_lines T /\
  has_signature line_placeholder = false.
Proof.
  split; [|reflexivity].
  apply redact_lines_no_signature, redact_lines_clean.
Qed.

(** ** C9.  As stated (same output for every order of valid,
    non-overlapping spans) the claim fails for empty spans at one
    position: the stable sort keeps their input order, and the one
    listed first ends up second in the output. *)
Lemma empty_spans_order_matters :
  let t := txt "abcdef" in
  let a := mkEntity (txt "X") 3 3 in
  let b := mkEntity (txt "Y") 3 3 in
  Forall (valid_span t) [a; b] /\ pairwise_disjoint [a; b] /\
  Permutation [a; b] [b; a] /\
  redact_entities t [a; b] = txt "abc[REDACTED Y][REDACTED X]def" /\
  redact_entities t [b; a] = txt "abc[REDACTED X][REDACTED Y]def" /\
  redact_entities t [a; b] <> redact_entities t [b; a].
Proof.
  cbv zeta. split; [concrete_spans|]. split; [concrete_spans|].
  split; [apply perm_swap|].
  split; [reflexivity|]. split; [reflexivity|].
  vm_compute. discriminate.
Qed.

(** C9, amended.  For spans with pairwise distinct [begin]s, as valid
    non-overlapping spans are when none is empty, the output is the
    same for every order of the input list. *)
Theorem order_of_input_irrelevant (t : text) (spans spans' : list entity) :
  Permutation spans spans' ->
  distinct_begins spans ->
  redact_entities t spans = redact_entities t spans'.
Proof.
  intros Hp Hnd. rewrite !redact_entities_fold.
  rewrite (sorted_desc_permutation _ _ Hp Hnd). reflexivity.
Qed.

Lemma order_of_input_irrelevant_witness :
  let t := txt "AAA BBB CCC" in
  let x := mkEntity (txt "X") 0 3 in
  let y := mkEntity (txt "Y") 8 11 in
  redact_entities t [x; y] = redact_entities t [y; x].
Proof.
  cbv zeta. apply order_of_input_irrelevant.
  - apply perm_swap.
  - concrete_spans.
Defined.

Lemma fold_left_ext_in {A B : Type} (f g : A -> B -> A) l a :
  (forall x, In x l -> forall y, f y x = g y x) ->
  fold_left f l a = fold_left g l a.
Proof.
  revert a. induction l as [|x l IH]; intros a H; [reflexivity|].
  cbn [fold_left]. rewrite (H x (or_introl eq_refl)).
  apply IH. intros z Hz. apply H. now right.
Qed.

Lemma replace_span_clamped cur e :
  nonneg_offsets e ->
  replace_span cur e = clamped_replace cur e /\
  replace_span cur e = replace_span cur (clamp (length cur) e).
Proof.
  intros [Hb He].
  unfold replace_span, clamped_replace, clamp, placeholder,
    slice_to, slice_from.
  cbn [EType BeginOffset EndOffset].
  rewrite !slice_index_nonneg by lia.
  split; [reflexivity|].
  set (len := length cur).
  replace (Nat.min (Z.to_nat (Z.min (BeginOffset e) (Z.of_nat len))) len)
    with (Nat.min (Z.to_nat (BeginOffset e)) len) by lia.
  replace (Nat.min (Z.to_nat (Z.min (EndOffset e) (Z.of_nat len))) len)
    with (Nat.min (Z.to_nat (EndOffset e)) len) by lia.
  reflexivity.
Qed.

(** ** C10.  With non-negative offsets [redact_pii] always returns, and
    what it returns is the text the loop builds with every offset cut
    down to the length of the current text: nothing checks the offsets,
    each slice brings its bound back into the text, so a span with
    [begin > end] or with [end] beyond the text acts as the span with
    both offsets clamped. *)
Theorem redact_pii_returns_clamping (t : text) (ents : list entity) :
  Forall nonneg_offsets ents ->
  call_redact_pii t ents =
    Returns (fold_left clamped_replace (sorted_desc ents) (redact_lines t)) /\
  redact_pii t ents =
    fold_left (fun cur e => replace_span cur (clamp (length cur) e))
              (sorted_desc ents) (redact_lines t).
Proof.
  intros Hnn.
  assert (Hs : forall e, In e (sorted_desc ents) -> nonneg_offsets e).
  { intros e He. rewrite Forall_forall in Hnn. apply Hnn.
    eapply Permutation_in; [apply sorted_desc_perm|exact He]. }
  unfold call_redact_pii, redact_pii. rewrite redact_entities_fold.
  split.
  - f_equal. apply fold_left_ext_in.
    intros e He cur. apply replace_span_clamped, Hs, He.
  - apply fold_left_ext_in.
    intros e He cur. apply replace_span_clamped, Hs, He.
Qed.

Lemma redact_pii_returns_clamping_witness :
  let t := txt "abcdef" in
  let ents := [mkEntity (txt "X") 7 50; mkEntity (txt "Y") 4 2] in
  call_redact_pii t ents = Returns (txt "abcd[REDACTED Y]cdef[REDACTED X]") /\
  redact_pii t ents =
    replace_span (replace_span t (mkEntity (txt "X") 6 6))
                 (mkEntity (txt "Y") 4 2).
Proof.
  cbv zeta.
  apply (redact_pii_returns_clamping (txt "abcdef")
           [mkEntity (txt "X") 7 50; mkEntity (txt "Y") 4 2]).
  concrete_spans.
Defined.

(* ================================================================= *)
(** * Further properties of the line pass *)

Lemma split_join_lines ls :
  ls <> [] -> Forall no_newline ls -> split_lines (join_lines ls) = ls.
Proof.
  intros Hne H. induction H as [|l ls Hl Hls IH]; [congruence|].
  destruct ls as [|l' ls].
  - cbn [join_lines]. apply split_lines_single, Hl.
  - change (join_lines (l :: l' :: ls))
      with (l ++ newline :: join_lines (l' :: ls)).
    rewrite (split_lines_line _ _ Hl), IH by congruence. reflexivity.
Qed.

Lemma no_newline_app l1 l2 :
  no_newline l1 -> no_newline l2 -> no_newline (l1 ++ l2).
Proof.
  unfold no_newline. intros H1 H2. rewrite forallb_app, H1, H2. reflexivity.
Qed.

Lemma redact_lines_no_newline l :
  no_newline l -> no_newline (redact_lines l).
Proof.
  intros Hl. rewrite (redact_lines_of_line l Hl).
  destruct (pattern_end l) as [rest|] eqn:E; [|exact Hl].
  apply no_newline_app; [reflexivity|].
  destruct (pattern_match_consumes _ _ E) as (c & pre & Hs).
  rewrite Hs in Hl. apply (no_newline_app_inv (c :: pre)), Hl.
Qed.

(** The line pass maps the lines of the text one to one. *)
Lemma split_lines_redact_lines t :
  split_lines (redact_lines t) = map redact_lines (split_lines t).
Proof.
  rewrite (redact_lines_by_line t) at 1.
  apply split_join_lines.
  - destruct (split_lines_first t) as (l & ls & -> & _). discriminate.
  - pose proof (split_lines_no_newline t) as H.
    induction H as [|l ls Hl _ IH]; cbn [map]; constructor;
      [apply redact_lines_no_newline, Hl|exact IH].
Qed.

Lemma nth_error_split_lines_no_newline t i l :
  nth_error (split_lines t) i = Some l -> no_newline l.
Proof.
  intros H. apply nth_error_In in H.
  pose proof (split_lines_no_newline t) as Hf.
  rewrite Forall_forall in Hf. apply Hf, H.
Qed.

(** ** X1.  The line pass keeps the number of lines, and a line without
    the signature stays as it is, at its place. *)
Theorem unmasked_lines_kept_in_place (t : text) :
  length (split_lines (redact_lines t)) = length (split_lines t) /\
  (forall i l,
      nth_error (split_lines t) i = Some l ->
      has_signature l = false ->
      nth_error (split_lines (redact_lines t)) i = Some l).
Proof.
  rewrite split_lines_redact_lines. split.
  - apply length_map.
  - intros i l Hi Hs. rewrite nth_error_map, Hi. cbn [option_map].
    rewrite (redact_lines_no_signature l Hs). reflexivity.
Qed.

Lemma unmasked_lines_kept_in_place_witness :
  let t := txt "Ann" ++ newline :: txt "acct ***1234 ok" ++
           newline :: txt "***" in
  length (split_lines (redact_lines t)) = 3%nat /\
  nth_error (split_lines (redact_lines t)) 2 = Some (txt "***").
Proof.
  cbv zeta.
  destruct (unmasked_lines_kept_in_place
              (txt "Ann" ++ newline :: txt "acct ***1234 ok" ++
               newline :: txt "***")) as [Hlen Hkeep].
  split; [exact Hlen|].
  apply Hkeep; reflexivity.
Defined.

Lemma drop_digits_shape s :
  exists digits, s = digits ++ drop_digits s /\
                 forallb is_digit digits = true /\
                 starts_with_digit (drop_digits s) = false.
Proof.
  induction s as [|c s (ds & Hs & Hd & Hn)].
  - exists []. repeat split.
  - cbn [drop_digits]. destruct (is_digit c) eqn:E.
    + exists (c :: ds). cbn [app forallb]. rewrite E, Hd.
      repeat split; congruence.
    + exists []. cbn. rewrite E. repeat split.
Qed.

(** The match runs from the start of the line to the end of the digits
    that follow its last mask character. *)
Lemma pattern_end_shape s rest :
  pattern_end s = Some rest ->
  exists before digits,
    s = before ++ mask :: digits ++ rest /\
    digits <> [] /\ forallb is_digit digits = true /\
    starts_with_digit rest = false.
Proof.
  revert rest. induction s as [|c s IH]; [discriminate|].
  intros rest. cbn [pattern_end].
  destruct (is_newline c); [discriminate|].
  destruct (pattern_end s) as [r|] eqn:E.
  - intros H. injection H as <-.
    destruct (IH _ eq_refl) as (before & ds & Hs & Hrest).
    exists (c :: before), ds. split; [cbn; congruence|exact Hrest].
  - cbn [mask_run_end]. destruct (is_mask c) eqn:Hm; [|discriminate].
    apply Ascii.eqb_eq in Hm. subst c.
    destruct (starts_with_digit s) eqn:Hd.
    + intros H. injection H as <-.
      destruct (drop_digits_shape s) as (ds & Hs & Hds & Hn).
      exists [], ds. cbn [app]. repeat split; try assumption.
      * congruence.
      * intros ->. cbn [app] in Hs. rewrite <- Hs in Hn. congruence.
    + intros H. apply mask_run_is_match in H. contradiction.
Qed.

(** ** X2.  A line that holds the signature becomes the placeholder
    followed by the rest of the line after the digits of its last
    masked number; that rest holds no signature and starts with no
    digit. *)
Theorem masked_line_cut_after_last_number (t : text) (i : nat) (l : text) :
  nth_error (split_lines t) i = Some l ->
  has_signature l = true ->
  exists l', nth_error (split_lines (redact_lines t)) i = Some l' /\
             redacted_from l l'.
Proof.
  intros Hi Hs.
  pose proof (nth_error_split_lines_no_newline _ _ _ Hi) as Hl.
  exists (redact_lines l). split.
  - rewrite split_lines_redact_lines, nth_error_map, Hi. reflexivity.
  - rewrite (redact_lines_of_line l Hl).
    destruct (pattern_end l) as [rest|] eqn:E.
    + destruct (pattern_end_shape _ _ E) as (before & ds & Hsplit & Hne & Hd & Hn).
      exists before, ds, rest. repeat split; try assumption.
      apply line_signature_matches; [|apply (pattern_end_last _ _ E)].
      rewrite Hsplit in Hl.
      apply (no_newline_app_inv (before ++ mask :: ds)).
      rewrite <- app_assoc. exact Hl.
    + rewrite (line_signature_matches l Hl E) in Hs. discriminate.
Qed.

Lemma masked_line_cut_after_last_number_witness :
  let t := txt "Ann" ++ newline :: txt "acct **12 and *9 tail" in
  exists l', nth_error (split_lines (redact_lines t)) 1 = Some l' /\
             redacted_from (txt "acct **12 and *9 tail") l'.
Proof.
  cbv zeta.
  apply (masked_line_cut_after_last_number _ 1 (txt "acct **12 and *9 tail"));
    reflexivity.
Defined.

(** ** X3.  No masked number is left by the line pass: neither the
    output nor any of its lines holds mask characters followed by
    digits. *)
Theorem no_masked_number_survives (t : text) :
  ~ signature_in (redact_lines t) /\
  (forall l, In l (split_lines (redact_lines t)) -> ~ signature_in l).
Proof.
  pose proof (redact_lines_clean t) as Hc. split.
  - rewrite <- has_signature_iff. congruence.
  - intros l Hin Hs. apply has_signature_iff in Hs.
    rewrite has_signature_lines in Hc.
    assert (existsb has_signature (split_lines (redact_lines t)) = true)
      by (apply existsb_exists; exists l; split; assumption).
    congruence.
Qed.

(* ================================================================= *)
(** * Further properties of the entity pass *)

Lemma replace_span_keeps_prefix cur e m :
  0 <= m <= Z.of_nat (length cur) -> m <= BeginOffset e ->
  slice_to (replace_span cur e) m = slice_to cur m /\
  m <= Z.of_nat (length (replace_span cur e)).
Proof.
  intros Hm Hb. unfold replace_span.
  set (k := slice_index (length cur) (BeginOffset e)).
  assert (Hk : (Z.to_nat m <= k)%nat /\ (k <= length cur)%nat).
  { unfold k. rewrite slice_index_nonneg by lia. lia. }
  assert (Hlen : length (slice_to cur (BeginOffset e)) = k).
  { unfold slice_to. fold k. rewrite length_firstn. lia. }
  split.
  - unfold slice_to at 1. rewrite slice_index_in.
    + rewrite firstn_app, Hlen.
      replace (Z.to_nat m - k)%nat with 0%nat by lia.
      cbn [firstn]. rewrite app_nil_r.
      unfold slice_to. fold k. rewrite firstn_firstn.
      rewrite slice_index_in by lia. f_equal. lia.
    + rewrite length_app, Hlen. lia.
  - rewrite length_app, Hlen. lia.
Qed.

Lemma fold_keeps_prefix l cur m :
  0 <= m <= Z.of_nat (length cur) ->
  Forall (fun e => m <= BeginOffset e) l ->
  slice_to (fold_left replace_span l cur) m = slice_to cur m.
Proof.
  intros Hm Hl. revert cur Hm.
  induction Hl as [|e l He _ IH]; intros cur Hm; [reflexivity|].
  cbn [fold_left].
  destruct (replace_span_keeps_prefix cur e m Hm He) as [Hp Hlen].
  rewrite IH by lia. exact Hp.
Qed.

(** ** X4.  Whatever the spans, overlapping or out of range, the text
    to the left of every span's [begin] is never altered by the entity
    pass. *)
Theorem text_before_every_span_kept (t : text) (spans : list entity) (m : Z) :
  0 <= m <= Z.of_nat (length t) ->
  (forall e, In e spans -> m <= BeginOffset e) ->
  slice_to (redact_entities t spans) m = slice_to t m.
Proof.
  intros Hm Hb. rewrite redact_entities_fold.
  apply fold_keeps_prefix; [exact Hm|].
  apply Forall_forall. intros e He. apply Hb.
  eapply Permutation_in; [apply sorted_desc_perm|exact He].
Qed.

Lemma text_before_every_span_kept_witness :
  let t := txt "Hello John Doe of Kent" in
  let spans := [mkEntity (txt "NAME") 6 14; mkEntity (txt "X") 11 40;
                mkEntity (txt "Y") 9 7] in
  slice_to (redact_entities t spans) 6 = txt "Hello ".
Proof.
  cbv zeta.
  apply (text_before_every_span_kept (txt "Hello John Doe of Kent")).
  - cbn. lia.
  - intros e [<-|[<-|[<-|[]]]]; cbn; lia.
Defined.

Lemma chained_longer pos len len' asc :
  chained pos len asc -> len <= len' -> chained pos len' asc.
Proof.
  revert pos. induction asc as [|e r IH]; intros pos H Hle; cbn in *.
  - lia.
  - destruct H as (H1 & H2 & H3). repeat split; try assumption.
    apply IH; assumption.
Qed.

(** Under the hypotheses of the layout theorem the loop writes the
    layout of the spans taken by increasing [begin]. *)
Lemma redact_entities_chained t spans :
  Forall (valid_span t) spans -> pairwise_disjoint spans ->
  distinct_begins spans ->
  chained 0 (Z.of_nat (length t)) (rev (sorted_desc spans)) /\
  redact_entities t spans = spec_layout t 0 (rev (sorted_desc spans)).
Proof.
  intros Hval Hdis Hnd.
  assert (Hperm : Permutation (rev (sorted_desc spans)) spans).
  { rewrite <- Permutation_rev. apply sorted_desc_perm. }
  assert (Hch : chained 0 (Z.of_nat (length t)) (rev (sorted_desc spans))).
  { apply chained_of_sorted.
    - apply StronglySorted_rev_flip, sorted_strict.
      + apply sorted_desc_sorted.
      + unfold distinct_begins in *.
        eapply Permutation_NoDup; [|exact Hnd].
        apply Permutation_map. symmetry. apply sorted_desc_perm.
    - intros x y Hx Hy. apply (ForallOrdPairs_In Hdis);
        eapply Permutation_in; eassumption.
    - eapply Permutation_Forall; [symmetry; exact Hperm|exact Hval].
    - lia.
    - intros x Hx.
      assert (Hin : In x spans) by (eapply Permutation_in; eassumption).
      rewrite Forall_forall in Hval. destruct (Hval x Hin). lia. }
  split; [exact Hch|].
  rewrite redact_entities_fold.
  rewrite <- (rev_involutive (sorted_desc spans)) at 1.
  rewrite (fold_rev_chained t _ 0); [reflexivity|lia|exact Hch].
Qed.

Lemma spec_layout_app a x pos asc :
  0 <= pos -> chained pos (Z.of_nat (length a)) asc ->
  spec_layout (a ++ x) pos asc = spec_layout a pos asc ++ x.
Proof.
  revert pos. induction asc as [|e r IH]; intros pos Hpos Hch.
  - cbn [spec_layout chained] in *. unfold slice_from.
    rewrite !slice_index_in by (rewrite ?length_app; lia).
    rewrite skipn_app.
    replace (Z.to_nat pos - length a)%nat with 0%nat by lia.
    reflexivity.
  - destruct Hch as (H1 & H2 & H3).
    pose proof (chained_bound _ _ _ H3) as Hb.
    cbn [spec_layout]. rewrite IH by (lia || assumption).
    rewrite <- !app_assoc. f_equal.
    unfold py_slice.
    rewrite !slice_index_in by (rewrite ?length_app; lia).
    rewrite skipn_app, firstn_app, length_skipn.
    replace (Z.to_nat pos - length a)%nat with 0%nat by lia.
    replace (Z.to_nat (BeginOffset e) - Z.to_nat pos -
             (length a - Z.to_nat pos))%nat with 0%nat by lia.
    cbn [skipn firstn]. rewrite app_nil_r. reflexivity.
Qed.

Lemma valid_span_longer a x e : valid_span a e -> valid_span (a ++ x) e.
Proof.
  unfold valid_span. rewrite length_app. lia.
Qed.

(** The entity pass on spans that lie in the first part of a text
    leaves the rest of the text alone. *)
Lemma redact_entities_app a x spans :
  Forall (valid_span a) spans -> pairwise_disjoint spans ->
  distinct_begins spans ->
  redact_entities (a ++ x) spans = redact_entities a spans ++ x.
Proof.
  intros Hval Hdis Hnd.
  destruct (redact_entities_chained a spans Hval Hdis Hnd) as [Hch ->].
  assert (Hval' : Forall (valid_span (a ++ x)) spans).
  { eapply Forall_impl; [|exact Hval]. intros e. apply valid_span_longer. }
  destruct (redact_entities_chained (a ++ x) spans Hval' Hdis Hnd) as [_ ->].
  apply spec_layout_app; [lia|exact Hch].
Qed.

(** The match is found in the line it starts in, whatever comes before
    the next newline or after it. *)
Lemma pattern_end_before_newline a x :
  pattern_end (a ++ newline :: x) =
  option_map (fun rest => rest ++ newline :: x) (pattern_end a).
Proof.
  induction a as [|c a IH]; [reflexivity|].
  cbn [app pattern_end]. destruct (is_newline c); [reflexivity|].
  rewrite IH. destruct (pattern_end a); [reflexivity|].
  cbn [option_map]. apply (mask_run_end_line (c :: a)).
Qed.

Lemma redact_lines_at_newline a x :
  redact_lines (a ++ newline :: x) =
  redact_lines a ++ newline :: redact_lines x.
Proof.
  remember (length a) as n eqn:Hn.
  assert (Hle : (length a <= n)%nat) by lia. clear Hn.
  revert a Hle. induction n as [|n IH]; intros a Hle.
  - destruct a; [|cbn in Hle; lia].
    apply redact_lines_copy. reflexivity.
  - destruct a as [|c a]; [apply redact_lines_copy; reflexivity|].
    cbn [length] in Hle.
    pose proof (pattern_end_before_newline (c :: a) x) as Hp.
    destruct (pattern_end (c :: a)) as [rest|] eqn:E; cbn [option_map] in Hp.
    + rewrite (redact_lines_match _ _ Hp), (redact_lines_match _ _ E).
      destruct (pattern_match_consumes _ _ E) as (c' & pre & Hs).
      rewrite IH; [rewrite app_assoc; reflexivity|].
      injection Hs as _ Hs. apply (f_equal (@length ascii)) in Hs.
      rewrite length_app in Hs. lia.
    + cbn [app] in *.
      rewrite (redact_lines_copy _ _ Hp), (redact_lines_copy _ _ E).
      rewrite IH by lia. reflexivity.
Qed.

(** ** X5.  Spans that lie in the lines before the first masked line
    are redacted as on the original text: the line pass leaves those
    lines alone, so the offsets still fit, and the rest of the text
    only goes through the line pass. *)
Theorem spans_before_masked_lines_fit
  (a rest : text) (spans : list entity) :
  has_signature a = false ->
  Forall (valid_span a) spans ->
  pairwise_disjoint spans ->
  distinct_begins spans ->
  redact_pii (a ++ newline :: rest) spans =
  redact_entities a spans ++ newline :: redact_lines rest.
Proof.
  intros Ha Hval Hdis Hnd. unfold redact_pii.
  rewrite redact_lines_at_newline, (redact_lines_no_signature a Ha).
  apply redact_entities_app; assumption.
Qed.

Lemma spans_before_masked_lines_fit_witness :
  let a := txt "Name John" in
  let rest := txt "card ***1234" in
  let spans := [mkEntity (txt "NAME") 5 9] in
  redact_pii (a ++ newline :: rest) spans =
  redact_entities a spans ++ newline :: redact_lines rest.
Proof.
  cbv zeta. apply spans_before_masked_lines_fit;
    [reflexivity|concrete_spans..].
Defined.

(** ** X6.  A span the detector lists twice is applied twice: the
    second turn keeps the text up to [begin], writes the placeholder
    again and resumes [end - begin] characters into what the first turn
    wrote after [begin], that is inside the first placeholder or, for a
    span longer than its placeholder, beyond it in the text that
    follows the span. *)
Theorem duplicated_span_applied_twice (t : text) (e : entity) :
  valid_span t e ->
  redact_entities t [e; e] =
  slice_to t (BeginOffset e) ++ placeholder e ++
  skipn (Z.to_nat (EndOffset e - BeginOffset e))
        (placeholder e ++ slice_from t (EndOffset e)).
Proof.
  intros (Hb & Hbe & He).
  unfold redact_entities. cbn [sorted_desc insert_desc].
  rewrite Z.ltb_irrefl. cbn [fold_left].
  set (A := slice_to t (BeginOffset e)).
  set (C := slice_from t (EndOffset e)).
  assert (HA : length A = Z.to_nat (BeginOffset e))
    by (apply length_slice_to; lia).
  unfold replace_span at 1. fold A.
  assert (HC : replace_span t e = A ++ placeholder e ++ C) by reflexivity.
  rewrite HC. f_equal.
  - unfold slice_to. rewrite slice_index_nonneg by lia.
    rewrite length_app, HA.
    replace (Nat.min (Z.to_nat (BeginOffset e))
               (Z.to_nat (BeginOffset e) + length (placeholder e ++ C)))
      with (length A + 0)%nat by lia.
    rewrite firstn_app_2. cbn [firstn]. apply app_nil_r.
  - f_equal. unfold slice_from. rewrite slice_index_nonneg by lia.
    rewrite length_app, HA.
    set (d := Z.to_nat (EndOffset e - BeginOffset e)).
    set (n := length (placeholder e ++ C)).
    destruct (Nat.le_gt_cases d n) as [Hd|Hd].
    + replace (Nat.min (Z.to_nat (EndOffset e))
                 (Z.to_nat (BeginOffset e) + n))
        with (length A + d)%nat by lia.
      rewrite skipn_app, skipn_all2 by lia.
      replace (length A + d - length A)%nat with d by lia. reflexivity.
    + replace (Nat.min (Z.to_nat (EndOffset e))
                 (Z.to_nat (BeginOffset e) + n))
        with (length A + n)%nat by lia.
      rewrite skipn_app, skipn_all2 by lia.
      replace (length A + n - length A)%nat with n by lia.
      unfold n. rewrite skipn_all, skipn_all2 by (fold n; lia).
      reflexivity.
Qed.

Lemma duplicated_span_applied_twice_witness :
  let t := txt "Hello John Doe" in
  let e := mkEntity (txt "NAME") 6 10 in
  redact_entities t [e; e] = txt "Hello [REDACTED NAME]ACTED NAME] Doe".
Proof.
  cbv zeta.
  apply (duplicated_span_applied_twice (txt "Hello John Doe")
           (mkEntity (txt "NAME") 6 10)).
  unfold valid_span. cbn. lia.
Defined.

(** ** X7.  When every entity the service answers is of the excluded
    kind, only the line pass acts: no placeholder of an entity is
    written. *)
Theorem only_excluded_entities_line_pass_only
  (t : text) (detected : list entity) :
  Forall (fun e => EType e = excluded_kind) detected ->
  handler_redaction t detected = redact_lines t.
Proof.
  intros H. unfold handler_redaction.
  replace (detect_filter detected) with (@nil entity); [reflexivity|].
  symmetry. induction H as [|e l He _ IH]; [reflexivity|].
  unfold detect_filter in *. cbn [filter].
  apply text_eqb_eq in He. rewrite He. exact IH.
Qed.

Lemma only_excluded_entities_line_pass_only_witness :
  let t := txt "ping 10.0.0.1 and 10.0.0.2" in
  handler_redaction t [mkEntity (txt "IP_ADDRESS") 5 13;
                       mkEntity (txt "IP_ADDRESS") 18 26] = t.
Proof.
  cbv zeta.
  rewrite (only_excluded_entities_line_pass_only
             (txt "ping 10.0.0.1 and 10.0.0.2")).
  - reflexivity.
  - repeat constructor.
Defined.

Lemma length_spec_layout t pos asc :
  0 <= pos -> chained pos (Z.of_nat (length t)) asc ->
  Z.of_nat (length (spec_layout t pos asc)) =
  Z.of_nat (length t) - pos + growth asc.
Proof.
  revert pos. induction asc as [|e r IH]; intros pos Hpos Hch.
  - cbn [spec_layout growth chained] in *. unfold slice_from.
    rewrite slice_index_in, length_skipn by lia. lia.
  - destruct Hch as (H1 & H2 & H3).
    pose proof (chained_bound _ _ _ H3) as Hb.
    cbn [spec_layout growth]. rewrite !length_app.
    rewrite !Nat2Z.inj_add, IH by (lia || assumption).
    unfold py_slice. rewrite !slice_index_in by lia.
    rewrite length_firstn, length_skipn. lia.
Qed.

Lemma growth_perm l l' : Permutation l l' -> growth l = growth l'.
Proof.
  induction 1; cbn [growth]; lia.
Qed.

(** ** X8.  For valid, pairwise non-overlapping spans with distinct
    [begin]s the length of the output is the length of the text plus,
    for each span, the length of its placeholder less the length of its
    range. *)
Theorem length_after_entity_pass (t : text) (spans : list entity) :
  Forall (valid_span t) spans ->
  pairwise_disjoint spans ->
  distinct_begins spans ->
  Z.of_nat (length (redact_entities t spans)) =
  Z.of_nat (length t) + growth spans.
Proof.
  intros Hval Hdis Hnd.
  destruct (redact_entities_chained t spans Hval Hdis Hnd) as [Hch ->].
  rewrite length_spec_layout by (lia || assumption).
  rewrite (growth_perm (rev (sorted_desc spans)) spans); [lia|].
  rewrite <- Permutation_rev. apply sorted_desc_perm.
Qed.

Lemma length_after_entity_pass_witness :
  let t := txt "AAA BBB CCC" in
  let spans := [mkEntity (txt "X") 0 3; mkEntity (txt "Y") 8 11] in
  Z.of_nat (length (redact_entities t spans)) = 11 + ((12 - 3) + (12 - 3)).
Proof.
  cbv zeta.
  rewrite (length_after_entity_pass (txt "AAA BBB CCC")); [reflexivity|..];
    concrete_spans.
Defined.

(** A match that starts further to the right on the line is the one
    taken. *)
Lemma pattern_end_later before s rest :
  no_newline before -> pattern_end s = Some rest ->
  pattern_end (before ++ s) = Some rest.
Proof.
  unfold no_newline. intros Hb Hs.
  induction before as [|c before IH]; [exact Hs|].
  cbn [forallb] in Hb. apply andb_true_iff in Hb. destruct Hb as [Hc Hb].
  apply negb_true_iff in Hc.
  cbn [app pattern_end]. rewrite Hc, (IH Hb). reflexivity.
Qed.

Lemma digits_no_match digits :
  forallb is_digit digits = true ->
  pattern_end digits = None /\ drop_digits digits = [].
Proof.
  induction digits as [|d ds IH]; [split; reflexivity|].
  cbn [forallb]. intros H. apply andb_true_iff in H. destruct H as [Hd Hds].
  destruct (IH Hds) as [Hp Hdd]. split.
  - cbn [pattern_end mask_run_end].
    rewrite (digit_not_newline d Hd), Hp.
    destruct (is_mask d) eqn:Em; [|reflexivity].
    apply mask_not_digit in Em. congruence.
  - cbn [drop_digits]. rewrite Hd. exact Hdd.
Qed.

(** ** X9.  A line that ends with its masked number, one mask
    character or more and then digits up to the end of the line, is
    replaced whole: its image is the placeholder alone. *)
Theorem line_ending_in_masked_number_replaced
  (t : text) (i : nat) (before digits : text) :
  nth_error (split_lines t) i = Some (before ++ mask :: digits) ->
  digits <> [] ->
  forallb is_digit digits = true ->
  nth_error (split_lines (redact_lines t)) i = Some line_placeholder.
Proof.
  intros Hi Hne Hd.
  pose proof (nth_error_split_lines_no_newline _ _ _ Hi) as Hl.
  rewrite split_lines_redact_lines, nth_error_map, Hi. cbn [option_map].
  f_equal. rewrite (redact_lines_of_line _ Hl).
  destruct (digits_no_match digits Hd) as [Hp Hdd].
  assert (Hm : pattern_end (mask :: digits) = Some []).
  { cbn [pattern_end mask_run_end]. rewrite Hp.
    replace (is_newline mask) with false by reflexivity.
    replace (is_mask mask) with true by reflexivity.
    destruct digits as [|d ds]; [congruence|].
    cbn [forallb] in Hd. apply andb_true_iff in Hd.
    cbn [starts_with_digit]. rewrite (proj1 Hd), Hdd. reflexivity. }
  rewrite (pattern_end_later before _ [] ); [apply app_nil_r| |exact Hm].
  unfold no_newline in *. rewrite forallb_app in Hl.
  apply andb_true_iff in Hl. tauto.
Qed.

Lemma line_ending_in_masked_number_replaced_witness :
  let t := txt "Ann" ++ newline :: txt "acct ****1234" ++
           newline :: txt "bye" in
  nth_error (split_lines (redact_lines t)) 1 = Some line_placeholder.
Proof.
  cbv zeta.
  apply (line_ending_in_masked_number_replaced _ 1 (txt "acct ***")
           (txt "1234")); [reflexivity|discriminate|reflexivity].
Defined.

(** ** X10.  Two spans that overlap or touch are applied one after the
    other with the offsets of the original text.  When [second] begins
    no later than [first] and ends no earlier than [first] begins, the
    output keeps the text up to [second]'s [begin], writes [second]'s
    placeholder, and resumes [end(second) - begin(first)] characters
    into what the first turn wrote from [begin(first)] on: inside
    [first]'s placeholder, or beyond it in the text after [first]. *)
Theorem overlapping_spans_applied (t : text) (first second : entity) :
  valid_span t first -> valid_span t second ->
  BeginOffset second <= BeginOffset first ->
  BeginOffset first <= EndOffset second ->
  redact_entities t [first; second] =
  slice_to t (BeginOffset second) ++ placeholder second ++
  skipn (Z.to_nat (EndOffset second - BeginOffset first))
        (placeholder first ++ slice_from t (EndOffset first)).
Proof.
  intros (Hb1 & Hbe1 & He1) (Hb2 & Hbe2 & He2) Hle Hov.
  unfold redact_entities. cbn [sorted_desc insert_desc].
  destruct (Z.ltb_spec (BeginOffset first) (BeginOffset second)); [lia|].
  cbn [fold_left].
  set (A := slice_to t (BeginOffset first)).
  set (C := slice_from t (EndOffset first)).
  assert (HA : length A = Z.to_nat (BeginOffset first))
    by (apply length_slice_to; lia).
  assert (HC : replace_span t first = A ++ placeholder first ++ C)
    by reflexivity.
  unfold replace_span at 1. rewrite HC. f_equal.
  - unfold A. apply slice_to_prefix; lia.
  - f_equal. unfold slice_from. rewrite slice_index_nonneg by lia.
    rewrite length_app, HA.
    set (d := Z.to_nat (EndOffset second - BeginOffset first)).
    set (n := length (placeholder first ++ C)).
    destruct (Nat.le_gt_cases d n) as [Hd|Hd].
    + replace (Nat.min (Z.to_nat (EndOffset second))
                 (Z.to_nat (BeginOffset first) + n))
        with (length A + d)%nat by lia.
      rewrite skipn_app, skipn_all2 by lia.
      replace (length A + d - length A)%nat with d by lia. reflexivity.
    + replace (Nat.min (Z.to_nat (EndOffset second))
                 (Z.to_nat (BeginOffset first) + n))
        with (length A + n)%nat by lia.
      rewrite skipn_app, skipn_all2 by lia.
      replace (length A + n - length A)%nat with n by lia.
      unfold n. rewrite skipn_all, skipn_all2 by (fold n; lia).
      reflexivity.
Qed.

Lemma overlapping_spans_applied_witness :
  let t := txt "0123456789abcdefghijklmnop" in
  let a := mkEntity (txt "A") 5 15 in
  let b := mkEntity (txt "B") 10 20 in
  redact_entities t [b; a] = txt "01234[REDACTED A]CTED B]klmnop".
Proof.
  cbv zeta.
  apply (overlapping_spans_applied (txt "0123456789abcdefghijklmnop")
           (mkEntity (txt "B") 10 20) (mkEntity (txt "A") 5 15));
    unfold valid_span; cbn; lia.
Defined.

(* ================================================================= *)
(** * [download_photo] *)

Lemma rfind_bounds c s : -1 <= rfind c s < Z.of_nat (length s).
Proof.
  induction s as [|x s IH]; cbn [rfind length]; [lia|].
  destruct (Z.leb_spec 0 (rfind c s)); [lia|].
  destruct (Ascii.eqb x c); lia.
Qed.

Lemma rfind_absent c s :
  rfind c s = -1 <-> existsb (fun x => Ascii.eqb x c) s = false.
Proof.
  induction s as [|x s IH]; cbn [rfind existsb]; [tauto|].
  pose proof (rfind_bounds c s) as Hb.
  destruct (Z.leb_spec 0 (rfind c s)) as [H|H].
  - split; [lia|]. rewrite orb_false_iff. intros [_ H2].
    apply IH in H2. lia.
  - assert (Hr : rfind c s = -1) by lia. apply IH in Hr. rewrite Hr.
    destruct (Ascii.eqb x c); cbn; split; (discriminate || lia || reflexivity).
Qed.

Lemma slice_from_cons {A : Type} (x : A) (s : list A) i :
  0 <= i -> slice_from (x :: s) (i + 1) = slice_from s i.
Proof.
  intros Hi. unfold slice_from. rewrite !slice_index_nonneg by lia.
  cbn [length].
  replace (Nat.min (Z.to_nat (i + 1)) (S (length s)))
    with (S (Nat.min (Z.to_nat i) (length s))) by lia.
  reflexivity.
Qed.

Lemma basename_cons x s :
  basename (x :: s) =
  if existsb is_slash s then basename s
  else if is_slash x then s else x :: s.
Proof.
  unfold basename. cbn [rfind].
  pose proof (rfind_bounds slash s) as Hb.
  destruct (existsb is_slash s) eqn:E.
  - assert (Hr : 0 <= rfind slash s).
    { destruct (Z.leb_spec 0 (rfind slash s)); [assumption|].
      assert (Hm : rfind slash s = -1) by lia.
      apply rfind_absent in Hm. unfold is_slash in E. congruence. }
    destruct (Z.leb_spec 0 (rfind slash s)); [|lia].
    apply slice_from_cons. lia.
  - assert (Hm : rfind slash s = -1) by (apply rfind_absent; exact E).
    rewrite Hm. cbn [Z.leb]. unfold is_slash.
    destruct (Ascii.eqb x slash); reflexivity.
Qed.

Lemma basename_no_slash p : existsb is_slash p = false -> basename p = p.
Proof.
  destruct p as [|x s]; [reflexivity|].
  rewrite basename_cons. cbn [existsb]. intros H.
  apply orb_false_iff in H. destruct H as [-> ->]. reflexivity.
Qed.

Lemma basename_after_slash dir name :
  existsb is_slash name = false -> basename (dir ++ slash :: name) = name.
Proof.
  intros Hn. induction dir as [|x dir IH]; cbn [app]; rewrite basename_cons.
  - rewrite Hn. reflexivity.
  - rewrite existsb_app. cbn [existsb].
    replace (is_slash slash) with true by reflexivity.
    rewrite orb_true_r. exact IH.
Qed.

Lemma basename_split p :
  exists dir, p = dir ++ basename p /\
              (dir = [] \/ exists d, dir = d ++ [slash]) /\
              existsb is_slash (basename p) = false.
Proof.
  induction p as [|x s (dir & Hs & Hdir & Hn)].
  - exists []. repeat split. now left.
  - rewrite basename_cons. destruct (existsb is_slash s) eqn:E.
    + exists (x :: dir). split; [cbn; congruence|]. split; [|exact Hn].
      right. destruct Hdir as [->|(d & ->)].
      * cbn [app] in Hs. rewrite <- Hs in Hn. congruence.
      * exists (x :: d). reflexivity.
    + destruct (is_slash x) eqn:Ex.
      * exists [x]. split; [reflexivity|]. split; [|exact E].
        right. exists []. apply Ascii.eqb_eq in Ex. subst x. reflexivity.
      * exists []. split; [reflexivity|]. split; [now left|].
        cbn [existsb]. rewrite Ex, E. reflexivity.
Qed.

(** ** X11.  Whatever the object key, the file is written directly in
    [/tmp]: the path is ["/tmp/"] followed by the last component of the
    key, which holds no ['/']; the key is that component alone or a
    prefix ending in ['/'] followed by it. *)
Theorem download_path_directly_in_tmp (object_key : text) :
  exists dir name,
    object_key = dir ++ name /\
    (dir = [] \/ exists d, dir = d ++ [slash]) /\
    existsb is_slash name = false /\
    download_path_of object_key = txt "/tmp/" ++ name.
Proof.
  destruct (basename_split object_key) as (dir & Hs & Hdir & Hn).
  exists dir, (basename object_key). repeat split; assumption.
Qed.

(** ** X12.  Keys that differ only in their directories are written to
    the same file: the path is made of the last component alone. *)
Theorem download_path_ignores_directories (dir name : text) :
  existsb is_slash name = false ->
  download_path_of (dir ++ slash :: name) = txt "/tmp/" ++ name /\
  download_path_of name = txt "/tmp/" ++ name.
Proof.
  intros Hn. unfold download_path_of.
  rewrite (basename_after_slash dir name Hn), (basename_no_slash name Hn).
  split; reflexivity.
Qed.

Lemma download_path_ignores_directories_witness :
  download_path_of (txt "scans/2024/id.png") = txt "/tmp/id.png" /\
  download_path_of (txt "id.png") = txt "/tmp/id.png".
Proof.
  apply (download_path_ignores_directories (txt "scans/2024") (txt "id.png")).
  reflexivity.
Defined.

Lemma bind_returns {A B : Type} (m : outcome A) (k : A -> outcome B) b :
  bind m k = Returns b <-> exists a, m = Returns a /\ k a = Returns b.
Proof.
  destruct m as [a|exc]; cbn [bind].
  - split; [intros H; exists a; split; [reflexivity|exact H]|].
    intros (a' & Ha & Hk). injection Ha as <-. exact Hk.
  - split; [discriminate|]. intros (a' & Ha & _). discriminate.
Qed.

(** ** X13.  [download_photo] never raises.  It returns a path exactly
    when the event holds a bucket name and a string object key, the
    client is created, and both [head_object] and [download_file]
    return; the path is then ["/tmp/"] followed by the last component
    of the key.  In every other case, a missing key of the event and
    any failure of a request included, it returns [None]. *)
Theorem download_photo_path_or_none (s3 : s3_service) (event : pyval) :
  (exists result, download_photo s3 event = Returns result) /\
  (forall path,
      download_photo s3 event = Returns (Some path) <->
      exists bucket_name object_key,
        event_field event "bucket" "name" = Returns bucket_name /\
        event_field event "object" "key" = Returns (PStr object_key) /\
        path = download_path_of object_key /\
        boto3_client_s3 s3 = Returns tt /\
        head_object s3 bucket_name (PStr object_key) = Returns tt /\
        download_file s3 bucket_name (PStr object_key) path = Returns tt).
Proof.
  split.
  - unfold download_photo.
    destruct (download_photo_try s3 event); eexists; reflexivity.
  - intros path. unfold download_photo. split.
    + destruct (download_photo_try s3 event) as [r|exc] eqn:E;
        [|discriminate].
      intros H. injection H as ->.
      unfold download_photo_try in E.
      apply bind_returns in E. destruct E as (bucket_name & Hb & E).
      apply bind_returns in E. destruct E as (object_key & Hk & E).
      apply bind_returns in E. destruct E as (base & Hbase & E).
      cbv zeta in E.
      apply bind_returns in E. destruct E as ([] & Hc & E).
      apply bind_returns in E. destruct E as ([] & Hh & E).
      apply bind_returns in E. destruct E as ([] & Hd & E).
      injection E as <-.
      destruct object_key as [| | |k| |]; try discriminate.
      cbn [os_path_basename] in Hbase. injection Hbase as <-.
      exists bucket_name, k. repeat split; try assumption.
      unfold check_object_exists in Hh.
      destruct (head_object s3 bucket_name (PStr k)) as [[]|];
        [reflexivity|discriminate].
    + intros (bucket_name & k & Hb & Hk & -> & Hc & Hh & Hd).
      unfold download_photo_try, check_object_exists.
      rewrite Hb, Hk. cbn [bind os_path_basename].
      rewrite Hc. cbn [bind]. rewrite Hh. cbn [bind].
      unfold download_path_of in Hd. rewrite Hd. reflexivity.
Qed.

Lemma download_photo_path_or_none_witness :
  let s3 := {| boto3_client_s3 := Returns tt;
               head_object := fun _ _ => Raises "ClientError";
               download_file := fun _ _ _ => Returns tt |} in
  let event := s3_event (txt "inbox") (txt "scans/id.png") in
  (exists result, download_photo s3 event = Returns result) /\
  download_photo s3 event = Returns None /\
  download_photo s3 (PDict []) = Returns None.
Proof.
  cbv zeta. split; [|split; reflexivity].
  apply download_photo_path_or_none.
Defined.

(* ================================================================= *)
(** * [lambda_handler] *)

Section HandlerFacts.

Context {secret_info credentials_t image_bytes annotation : Type}.
Variable sv : services secret_info credentials_t image_bytes annotation.

Lemma extract_without_path credentials :
  extract_text_from_image sv None credentials =
  match ImageAnnotatorClient sv credentials with
  | Returns _ => Raises "TypeError"
  | Raises exc => Raises exc
  end.
Proof.
  unfold extract_text_from_image.
  destruct (ImageAnnotatorClient sv credentials); reflexivity.
Qed.

Lemma extract_returns image_path credentials extracted :
  extract_text_from_image sv image_path credentials = Returns extracted ->
  exists path content texts others,
    image_path = Some path /\
    read_binary sv path = Returns content /\
    text_annotations sv content = Returns (texts :: others) /\
    extracted = if truthy sv texts then description sv texts else [].
Proof.
  unfold extract_text_from_image. intros H.
  apply bind_returns in H. destruct H as (_ & _ & H).
  apply bind_returns in H. destruct H as (content & Hc & H).
  apply bind_returns in H. destruct H as (annotations & Ha & H).
  apply bind_returns in H. destruct H as (texts & Ht & H).
  injection H as <-.
  destruct image_path as [path|]; [|discriminate].
  destruct annotations as [|t others]; [discriminate|].
  injection Ht as ->.
  exists path, content, texts, others. repeat split; assumption.
Qed.

End HandlerFacts.

(** ** X14.  When [download_photo] returns [None], the handler gives no
    response: [extract_text_from_image] is called with [None] and the
    call raises, with [TypeError] from [open] when the steps before it
    succeed. *)
Theorem failed_download_no_response
  {secret_info credentials_t image_bytes annotation : Type}
  (sv : services secret_info credentials_t image_bytes annotation)
  (event : pyval) (region : text) :
  environ_lookup (environ sv) (txt "AWS_REGION") = Returns region ->
  download_photo (s3_in sv region) event = Returns None ->
  (exists exc, lambda_handler sv event = Raises exc) /\
  (forall secret_name info credentials,
      environ_lookup (environ sv) (txt "SECRET_NAME") = Returns secret_name ->
      get_secret sv secret_name region = Returns info ->
      from_service_account_info sv info = Returns credentials ->
      ImageAnnotatorClient sv credentials = Returns tt ->
      lambda_handler sv event = Raises "TypeError").
Proof.
  intros Hr Hd. split.
  - unfold lambda_handler.
    destruct (environ_lookup (environ sv) (txt "SECRET_NAME")) as [name|e];
      [|eexists; reflexivity].
    cbn [bind]. rewrite Hr. cbn [bind].
    destruct (get_secret sv name region) as [info|e];
      [|eexists; reflexivity].
    cbn [bind].
    destruct (from_service_account_info sv info) as [c|e];
      [|eexists; reflexivity].
    cbn [bind]. rewrite Hd. cbn [bind]. rewrite extract_without_path.
    destruct (ImageAnnotatorClient sv c); eexists; reflexivity.
  - intros name info c Hn Hs Hc Hv. unfold lambda_handler.
    rewrite Hn. cbn [bind]. rewrite Hr. cbn [bind].
    rewrite Hs. cbn [bind]. rewrite Hc. cbn [bind].
    rewrite Hd. cbn [bind]. rewrite extract_without_path, Hv. reflexivity.
Qed.

Lemma failed_download_no_response_witness :
  let sv := answering s3_object_missing [txt "John"] [] in
  let event := s3_event (txt "inbox") (txt "scans/id.png") in
  (exists exc, lambda_handler sv event = Raises exc) /\
  lambda_handler sv event = Raises "TypeError".
Proof.
  cbv zeta.
  destruct (failed_download_no_response
              (answering s3_object_missing [txt "John"] [])
              (s3_event (txt "inbox") (txt "scans/id.png"))
              (txt "eu-west-1")) as [Hex Hty]; [reflexivity..|].
  split; [exact Hex|].
  apply (Hty (txt "vision-key") tt tt); reflexivity.
Defined.

(** ** X15.  A response comes only from a downloaded image whose text
    detection gave at least one annotation (an empty list raises
    [IndexError]): its status is 200 and its body is the JSON of the
    text of the first annotation, redacted with the entities the
    detector found on that same text, those of the excluded kind
    left out. *)
Theorem response_is_redaction_of_first_annotation
  {secret_info credentials_t image_bytes annotation : Type}
  (sv : services secret_info credentials_t image_bytes annotation)
  (event : pyval) (r : response) :
  lambda_handler sv event = Returns r ->
  exists region path content texts others found,
    download_photo (s3_in sv region) event = Returns (Some path) /\
    read_binary sv path = Returns content /\
    text_annotations sv content = Returns (texts :: others) /\
    detect_pii_entities sv
      (if truthy sv texts then description sv texts else []) =
      Returns found /\
    statusCode r = 200 /\
    body r = response_body
               (handler_redaction
                  (if truthy sv texts then description sv texts else [])
                  found).
Proof.
  unfold lambda_handler. intros H.
  apply bind_returns in H. destruct H as (name & _ & H).
  apply bind_returns in H. destruct H as (region & _ & H).
  apply bind_returns in H. destruct H as (info & _ & H).
  apply bind_returns in H. destruct H as (c & _ & H).
  apply bind_returns in H. destruct H as (dp & Hd & H).
  apply bind_returns in H. destruct H as (extracted & He & H).
  apply bind_returns in H. destruct H as (ents & Hp & H).
  apply bind_returns in H. destruct H as (red & Hred & H).
  injection H as <-. injection Hred as <-.
  destruct (extract_returns sv _ _ _ He)
    as (path & content & texts & others & -> & Hrb & Hta & ->).
  unfold detect_pii_with_comprehend in Hp.
  apply bind_returns in Hp. destruct Hp as (_ & _ & Hp).
  apply bind_returns in Hp. destruct Hp as (found & Hf & Hp).
  injection Hp as <-.
  exists region, path, content, texts, others, found.
  repeat split; assumption.
Qed.

Lemma response_is_redaction_of_first_annotation_witness :
  let sv := answering s3_answering [txt "Hello John Doe"]
              [mkEntity (txt "NAME") 6 10] in
  let event := s3_event (txt "inbox") (txt "scans/id.png") in
  lambda_handler sv event =
    Returns {| statusCode := 200;
               body := response_body (txt "Hello [REDACTED NAME] Doe") |} /\
  exists region path content texts others found,
    download_photo (s3_in sv region) event = Returns (Some path) /\
    read_binary sv path = Returns content /\
    text_annotations sv content = Returns (texts :: others) /\
    detect_pii_entities sv
      (if truthy sv texts then description sv texts else []) =
      Returns found /\
    200 = 200 /\
    response_body (txt "Hello [REDACTED NAME] Doe") =
    response_body
      (handler_redaction
         (if truthy sv texts then description sv texts else []) found).
Proof.
  cbv zeta. split; [reflexivity|].
  apply (response_is_redaction_of_first_annotation
           (answering s3_answering [txt "Hello John Doe"]
              [mkEntity (txt "NAME") 6 10])
           (s3_event (txt "inbox") (txt "scans/id.png"))
           {| statusCode := 200;
              body := response_body (txt "Hello [REDACTED NAME] Doe") |}).
  reflexivity.
Defined.

(* ================================================================= *)
(** * The body of the response *)

Lemma json_escape_printable c : forallb printable (json_escape c) = true.
Proof.
  destruct c as [[] [] [] [] [] [] [] []]; reflexivity.
Qed.

Lemma json_unescape_escape c rest :
  json_unescape (json_escape c ++ rest) = c :: json_unescape rest.
Proof.
  destruct c as [[] [] [] [] [] [] [] []]; reflexivity.
Qed.

Lemma json_unescape_escaped s rest :
  json_unescape (flat_map json_escape s ++ rest) = s ++ json_unescape rest.
Proof.
  induction s as [|c s IH]; [reflexivity|].
  cbn [flat_map]. rewrite <- app_assoc, json_unescape_escape, IH.
  reflexivity.
Qed.

Lemma flat_map_escape_injective s1 s2 :
  flat_map json_escape s1 = flat_map json_escape s2 -> s1 = s2.
Proof.
  intros H. apply (f_equal (fun x => json_unescape (x ++ []))) in H.
  rewrite !json_unescape_escaped in H. cbn in H.
  rewrite !app_nil_r in H. exact H.
Qed.

Lemma json_string_printable s : forallb printable (json_string s) = true.
Proof.
  unfold json_string. cbn [forallb]. rewrite forallb_app.
  replace (forallb printable (flat_map json_escape s)) with true;
    [reflexivity|].
  symmetry. induction s as [|c s IH]; [reflexivity|].
  cbn [flat_map]. rewrite forallb_app, json_escape_printable, IH.
  reflexivity.
Qed.

(** ** X16.  The body of the response is made of printable ASCII
    characters only: no newline or other control character of the
    redacted text is written as it is. *)
Theorem response_body_printable (s : text) :
  forallb printable (response_body s) = true.
Proof.
  unfold response_body.
  rewrite !forallb_app, !json_string_printable. reflexivity.
Qed.

(** ** X17.  The body of the response determines the redacted text:
    two texts with the same body are equal. *)
Theorem response_body_faithful (s1 s2 : text) :
  response_body s1 = response_body s2 -> s1 = s2.
Proof.
  unfold response_body, json_string. intros H.
  apply app_inv_head in H. apply app_inv_head in H.
  apply app_inv_head in H. apply app_inv_tail in H.
  injection H as H. apply app_inv_tail in H.
  apply flat_map_escape_injective, H.
Qed.

Lemma response_body_faithful_witness :
  let s := txt "[REDACTED LINE]" ++ newline :: txt "a\b" in
  response_body s =
    txt "{" ++ quote :: txt "redacted_text" ++ quote :: txt ": " ++
    quote :: txt "[REDACTED LINE]\na\\b" ++ quote :: txt "}" /\
  s = s.
Proof.
  cbv zeta. split; [reflexivity|].
  apply response_body_faithful. reflexivity.
Defined.
